(** * Go-Apns: the push-notification client of [apns.go]

    A shallow embedding of [apns.go]: the frame written by [send], the
    connection handling of [Close] and [connect], the send loop
    [sendLoop] seen at its blocking points, and the error reader
    [readError].

    Conventions.
    - A Go [uintN] is a [Z] in [0, 2^N); conversions and [+= 1] have their
      wrap-around written out.
    - A [[]byte] is a [list byte].
    - A Go call returning [(v, err)] returns a pair whose second component
      is an [option error]; [None] is Go's [nil].
    - Every call that leaves the process (dial, handshake, write, close,
      read, the clock) takes its outcome from an explicit environment
      record, and leaves an [action] in the trace of the [World].
    - The goroutines meet on unbuffered channels.  The send loop is
      followed from one blocking receive to the next: an [event] is what
      wakes it, a step is what it does until it blocks again.  A send on
      a channel ([arg.err <- r], [errorChan <- e], [quit <- 1]) is
      recorded in the trace when the goroutine reaches it; the goroutine
      waits there until the other side receives.  The loop is driven by
      arbitrary sequences of events, which cover every interleaving with
      the callers and the readers.  The reader is followed in the same
      way, its two sends being blocking points of its own.
    - The exported [Close] touches [a.conn] from the caller's goroutine
      without synchronisation.  The model has it only between two steps
      of the loop; what is proved of runs that contain it holds under
      that assumption, and the statements that do not want it say
      so. *)

From Stdlib Require Import ZArith List Lia Bool Arith Sorted.
From Stdlib Require Import Strings.String Strings.Ascii Strings.Byte.
Import ListNotations.

Set Warnings "-register-all".
Open Scope Z_scope.

(* ================================================================== *)
(** ** Machine integers and bytes *)

Definition uint8 (z : Z) : Z := z mod 2 ^ 8.
Definition uint16 (z : Z) : Z := z mod 2 ^ 16.
Definition uint32 (z : Z) : Z := z mod 2 ^ 32.

(** Signed 64-bit wrap-around, for [time.Duration] arithmetic. *)
Definition int64 (z : Z) : Z := (z + 2 ^ 63) mod 2 ^ 64 - 2 ^ 63.

(** Go's [byte(v)]: the low eight bits of [v]. *)
Definition byte_of_Z (z : Z) : byte :=
  match Byte.of_N (Z.to_N (uint8 z)) with
  | Some b => b
  | None => x00
  end.

Definition Z_of_byte (b : byte) : Z := Z.of_N (Byte.to_N b).

(* ================================================================== *)
(** ** encoding/binary, big-endian, into a bytes.Buffer *)

(** The values [send] hands to [binary.Write]. *)
Inductive bin_data : Type :=
| U8 (v : Z)
| U16 (v : Z)
| U32 (v : Z)
| Bytes (l : list byte).

(** [binary.BigEndian.PutUint16] and [PutUint32]: most significant byte
    first, each byte obtained by a right shift and a [byte] conversion. *)
Definition PutUint16 (v : Z) : list byte :=
  [byte_of_Z (Z.shiftr v 8); byte_of_Z v].

Definition PutUint32 (v : Z) : list byte :=
  [byte_of_Z (Z.shiftr v 24); byte_of_Z (Z.shiftr v 16);
   byte_of_Z (Z.shiftr v 8); byte_of_Z v].

Definition big_endian (d : bin_data) : list byte :=
  match d with
  | U8 v => [byte_of_Z v]
  | U16 v => PutUint16 v
  | U32 v => PutUint32 v
  | Bytes l => l
  end.

(** [binary.Write(buffer, binary.BigEndian, d)] on a [bytes.Buffer]:
    appends, and cannot fail. *)
Definition binary_Write (buffer : list byte) (d : bin_data) : list byte :=
  buffer ++ big_endian d.

(** The value of a byte sequence read as a big-endian number. *)
Definition be_value (l : list byte) : Z :=
  fold_left (fun acc b => acc * 256 + Z_of_byte b) l 0.

(* ================================================================== *)
(** ** Errors *)

(** Go [error] values.  [LibError] is an error returned by a library call
    (net, tls, hex, json); [Errorf] is [fmt.Errorf(format, cause)];
    [ErrorfBytes] is [fmt.Errorf(format, string(bytes))];
    [NotificationError] is an error event made of the bytes of a
    response and of the error of the transport. *)
Inductive error : Type :=
| LibError (msg : string)
| Errorf (format : string) (cause : error)
| ErrorfBytes (format : string) (arg : list byte)
| NotificationError (raw : list byte) (cause : option error).

(* ================================================================== *)
(** ** time *)

(** A [time.Time] as nanoseconds since the Unix epoch; a [time.Duration]
    is an [int64] count of nanoseconds. *)
Definition Second : Z := 1000000000.
Definition Duration_mul (a b : Z) : Z := int64 (a * b).
Definition Time_Add (t d : Z) : Z := t + d.
Definition Time_Unix (t : Z) : Z := t / Second.

(* ================================================================== *)
(** ** The client and its world *)

(** What [apns.go] takes from outside the file: the payload type with its
    [MarshalJSON] method and the constructor [NewNotificationError] of
    the error events (both declared elsewhere in the repository), and
    [hex.DecodeString].  [Payload] is the type of the pointers
    [*Payload], the nil one included: what [MarshalJSON] makes of it is
    the method's business.  The three functions are taken to return. *)
Class Externals : Type := {
  Payload : Type;
  MarshalJSON : Payload -> list byte * option error;
  NewNotificationError : list byte -> option error -> error;
  hex_DecodeString : string -> list byte * option error
}.

(** The mutable fields of [Apn]; [server], [conf], [timeout] and the two
    channels are fixed at construction.  A [*tls.Conn] is the number of
    the socket it wraps. *)
Record Apn : Type := mkApn {
  conn : option nat;
  identifier : Z
}.

(** What the client does to the outside, in the order it does it. *)
Inductive action : Type :=
| DialOk (c : nat)                                  (* net.Dial opened socket c *)
| DialFail (e : error)
| HandshakeOk (c : nat)                             (* c is now an established TLS connection *)
| HandshakeFail (c : nat) (e : error)
| SpawnReader (c : nat) (quit : nat)                (* go readError(c, quit, errorChan) *)
| ConnWrite (c : nat) (data : list byte) (err : option error)
| ConnClose (c : nat) (err : option error)
| Deliver (ch : nat) (r : option error)             (* arg.err <- r *)
| Publish (e : error)                               (* apn.errorChan <- e *)
| CloseReturned (r : option error)                  (* the value a caller's Close() returns *)
| NilDereference.                                   (* a nil pointer is dereferenced: the process panics *)

Record World : Type := mkWorld {
  apn : Apn;
  fresh : nat;            (* number of the next socket net.Dial opens *)
  trace : list action
}.

(** The outcomes of the calls one event of the loop can make. *)
Record Env : Type := mkEnv {
  close_result : option error;       (* conn.Close() *)
  dial_result : option error;        (* net.Dial *)
  handshake_result : option error;   (* client_conn.Handshake() *)
  now : Z;                           (* time.Now() *)
  write_result : option error        (* a.conn.Write *)
}.

(* ================================================================== *)
(** ** A state monad with panics *)

Inductive outcome (A : Type) : Type :=
| Done (a : A) (w : World)
| Panicked (w : World).
Arguments Done {A} a w.
Arguments Panicked {A} w.

Definition M (A : Type) : Type := World -> outcome A.

Definition ret {A} (a : A) : M A := fun w => Done a w.

Definition bind {A B} (m : M A) (k : A -> M B) : M B :=
  fun w => match m w with
           | Done a w' => k a w'
           | Panicked w' => Panicked w'
           end.

Notation "x <- m ;; k" := (bind m (fun x => k))
  (at level 61, m at next level, right associativity).
Notation "m ;;; k" := (bind m (fun _ => k))
  (at level 61, right associativity).

Definition emit (a : action) : M unit :=
  fun w => Done tt (mkWorld (apn w) (fresh w) (trace w ++ [a])).

Definition panic {A} : M A :=
  fun w => Panicked (mkWorld (apn w) (fresh w) (trace w ++ [NilDereference])).

Definition get_conn : M (option nat) := fun w => Done (conn (apn w)) w.
Definition set_conn (c : option nat) : M unit :=
  fun w => Done tt (mkWorld (mkApn c (identifier (apn w))) (fresh w) (trace w)).

Definition get_identifier : M Z := fun w => Done (identifier (apn w)) w.
Definition set_identifier (i : Z) : M unit :=
  fun w => Done tt (mkWorld (mkApn (conn (apn w)) i) (fresh w) (trace w)).

Definition world_of {A} (o : outcome A) : World :=
  match o with Done _ w => w | Panicked w => w end.

(* ================================================================== *)
(** ** The socket calls *)

(** [conn.Close()]: the descriptor is released whatever the call
    returns (crypto/tls closes the underlying connection also when the
    close-notify alert fails). *)
Definition conn_Close (c : nat) (env : Env) : M (option error) :=
  emit (ConnClose c (close_result env)) ;;; ret (close_result env).

(** [net.Dial("tcp", a.server)]. *)
Definition net_Dial (env : Env) : M (nat * option error) :=
  match dial_result env with
  | Some e => emit (DialFail e) ;;; ret (0%nat, Some e)
  | None =>
      fun w => Done (fresh w, None)
                 (mkWorld (apn w) (S (fresh w)) (trace w ++ [DialOk (fresh w)]))
  end.

(** [tls.Client(conn, a.conf)] followed by [client_conn.Handshake()]. *)
Definition Handshake (c : nat) (env : Env) : M (option error) :=
  match handshake_result env with
  | Some e => emit (HandshakeFail c e) ;;; ret (Some e)
  | None => emit (HandshakeOk c) ;;; ret None
  end.

(** [a.conn.Write(pushPackage)]; a nil [a.conn] is a nil-pointer
    dereference. *)
Definition conn_Write (data : list byte) (env : Env) : M (option error) :=
  c <- get_conn ;;
  match c with
  | None => panic
  | Some c => emit (ConnWrite c data (write_result env)) ;;; ret (write_result env)
  end.

(* ================================================================== *)
(** ** Close, connect, send *)

Definition Close (env : Env) : M (option error) :=
  c <- get_conn ;;
  match c with
  | None => ret None
  | Some c =>
      set_conn None ;;;
      conn_Close c env
  end.

Definition connect (env : Env) : M (option nat * option error) :=
  err <- Close env ;;
  match err with
  | Some err => ret (None, Some (Errorf "close last connection failed: %s" err))
  | None =>
      d <- net_Dial env ;;
      match snd d with
      | Some err => ret (None, Some (Errorf "connect to server error: %d" err))
      | None =>
          let client_conn := fst d in
          err <- Handshake client_conn env ;;
          match err with
          | Some err => ret (None, Some (Errorf "handshake server error: %s" err))
          | None =>
              set_conn (Some client_conn) ;;;
              let quit := client_conn in
              emit (SpawnReader client_conn quit) ;;;
              ret (Some quit, None)
          end
      end
  end.

Definition maxPayloadBytes : Z := 256.

Section WithExternals.

Context {ext : Externals}.

(** What a non-nil [*Notification] points to; the nil pointer is the
    [None] of [send_arg] below. *)
Record Notification : Type := mkNotification {
  DeviceToken : string;
  ExpireAfterSeconds : Z;
  payload : Payload
}.

(** The frame [send] builds in its [bytes.Buffer], lines 130-138. *)
Definition pushPackage (ident expiry : Z) (tokenbin payloadbyte : list byte)
  : list byte :=
  let buffer := [] in
  let buffer := binary_Write buffer (U8 (uint8 1)) in
  let buffer := binary_Write buffer (U32 ident) in
  let buffer := binary_Write buffer (U32 (uint32 expiry)) in
  let buffer := binary_Write buffer (U16 (uint16 (Z.of_nat (List.length tokenbin)))) in
  let buffer := binary_Write buffer (Bytes tokenbin) in
  let buffer := binary_Write buffer (U16 (uint16 (Z.of_nat (List.length payloadbyte)))) in
  let buffer := binary_Write buffer (Bytes payloadbyte) in
  buffer.

Definition expiry_of (env : Env) (notification : Notification) : Z :=
  Time_Unix (Time_Add (now env)
               (Duration_mul (ExpireAfterSeconds notification) Second)).

Definition send (env : Env) (notification : Notification) : M (option error) :=
  let (tokenbin, err) := hex_DecodeString (DeviceToken notification) in
  match err with
  | Some err => ret (Some (Errorf "convert token to hex error: %s" err))
  | None =>
      let (payloadbyte, err) := MarshalJSON (payload notification) in
      match err with
      | Some err => ret (Some (Errorf "convert payload to json: %s" err))
      | None =>
          if Z.of_nat (List.length payloadbyte) >? maxPayloadBytes
          then ret (Some (ErrorfBytes "payload json too large: %s" payloadbyte))
          else
            let expiry := expiry_of env notification in
            ident <- get_identifier ;;
            let pushPackage := pushPackage ident expiry tokenbin payloadbyte in
            set_identifier (uint32 (ident + 1)) ;;;
            err <- conn_Write pushPackage env ;;
            match err with
            | Some err => ret (Some (Errorf "write socket error: %s" err))
            | None => ret None
            end
      end
  end.

(* ================================================================== *)
(** ** sendLoop, at its blocking points *)

(** [sendLoop] blocks in two places: on [<-apn.sendChan] at the top of
    the outer loop ([Idle]), and in the [select] of the inner loop
    ([Active quit], [quit] being the channel [connect] returned).  A
    nil-pointer dereference ends the process ([Crashed]). *)
Inductive phase : Type :=
| Idle
| Active (quit : nat)
| Crashed.

Record LoopState : Type := mkLoop {
  world : World;
  pc : phase;
  chans : nat             (* number of the next channel a Send makes *)
}.

(** What the loop can be woken by.  [Submit]: a caller's [Send] made its
    result channel and handed its [sendArg] over on [sendChan], [n]
    being what the pointer [arg.n] points to.  [SubmitNil]: the same for
    a caller's [Send(nil)], whose [arg.n] is the nil pointer.
    [QuitSignal]: a value arrived on [quit].  [IdleTimeout]: [time.After]
    fired.  [CloseCall]: some goroutine called the exported [Close]
    while the loop was blocked, and the three statements of [Close] ran
    before the loop woke up.  The source has no synchronisation there: a
    [Close] running while the loop itself runs is a data race, and no
    event stands for it. *)
Inductive event : Type :=
| Submit (n : Notification) (env : Env)
| QuitSignal (env : Env)
| IdleTimeout (env : Env)
| CloseCall (env : Env)
| SubmitNil (env : Env).

(** [apn.send(arg.n)]: [arg.n] is a [*Notification], [None] being the
    nil pointer, which line 115 dereferences before anything else. *)
Definition send_arg (env : Env) (n : option Notification) : M (option error) :=
  match n with
  | Some notification => send env notification
  | None => panic
  end.

(** Lines 150-156: a request received at the top of the outer loop. *)
Definition on_request_idle (ch : nat) (n : option Notification) (env : Env)
  : M (option nat) :=
  r <- connect env ;;
  match snd r with
  | Some err => emit (Deliver ch (Some err)) ;;; ret None
  | None =>
      res <- send_arg env n ;;
      emit (Deliver ch res) ;;;
      ret (fst r)
  end.

(** Lines 164-165: a request received in the [select]. *)
Definition on_request_active (ch : nat) (n : option Notification) (env : Env)
  : M unit :=
  res <- send_arg env n ;;
  emit (Deliver ch res).

(** Lines 169-173: after the inner loop. *)
Definition on_leave_active (env : Env) : M unit :=
  err <- Close env ;;
  match err with
  | Some err => emit (Publish (NewNotificationError [] (Some err)))
  | None => ret tt
  end.

(** The exported [Close], called from outside the loop. *)
Definition on_close_call (env : Env) : M unit :=
  r <- Close env ;;
  emit (CloseReturned r).

Definition step (s : LoopState) (e : event) : option LoopState :=
  match pc s, e with
  | Crashed, _ => None
  | Idle, Submit n env =>
      Some match on_request_idle (chans s) (Some n) env (world s) with
           | Done (Some quit) w => mkLoop w (Active quit) (S (chans s))
           | Done None w => mkLoop w Idle (S (chans s))
           | Panicked w => mkLoop w Crashed (S (chans s))
           end
  | Idle, SubmitNil env =>
      Some match on_request_idle (chans s) None env (world s) with
           | Done (Some quit) w => mkLoop w (Active quit) (S (chans s))
           | Done None w => mkLoop w Idle (S (chans s))
           | Panicked w => mkLoop w Crashed (S (chans s))
           end
  | Active quit, Submit n env =>
      Some match on_request_active (chans s) (Some n) env (world s) with
           | Done _ w => mkLoop w (Active quit) (S (chans s))
           | Panicked w => mkLoop w Crashed (S (chans s))
           end
  | Active quit, SubmitNil env =>
      Some match on_request_active (chans s) None env (world s) with
           | Done _ w => mkLoop w (Active quit) (S (chans s))
           | Panicked w => mkLoop w Crashed (S (chans s))
           end
  | Active _, QuitSignal env
  | Active _, IdleTimeout env =>
      Some match on_leave_active env (world s) with
           | Done _ w => mkLoop w Idle (chans s)
           | Panicked w => mkLoop w Crashed (chans s)
           end
  | Idle, QuitSignal _
  | Idle, IdleTimeout _ => None
  | ph, CloseCall env =>
      Some match on_close_call env (world s) with
           | Done _ w => mkLoop w ph (chans s)
           | Panicked w => mkLoop w Crashed (chans s)
           end
  end.

Fixpoint run (s : LoopState) (evs : list event) : option LoopState :=
  match evs with
  | [] => Some s
  | e :: evs =>
      match step s e with
      | Some s' => run s' evs
      | None => None
      end
  end.

(** The client [New] returns: no connection, identifier zero, the loop
    waiting for its first request. *)
Definition init : LoopState :=
  mkLoop (mkWorld (mkApn None 0) 0 []) Idle 0.

Definition reachable (s : LoopState) : Prop :=
  exists evs, run init evs = Some s.

End WithExternals.

(* ================================================================== *)
(** ** readError *)

Section Reader.

Context {ext : Externals}.

(** One return of [conn.Read]: the bytes that arrived and the error. *)
Record read_outcome : Type := mkRead {
  rd_data : list byte;
  rd_err : option error
}.

(** [conn.Read(p)]: at most [len(p)] bytes are copied to the front of
    [p]; returns the buffer, the count and the error. *)
Definition conn_Read (p : list byte) (r : read_outcome)
  : list byte * nat * option error :=
  let d := firstn (List.length p) (rd_data r) in
  (d ++ skipn (List.length d) p, List.length d, rd_err r).

(** Where [readError] can be blocked: in [conn.Read(p)], in [c <- e]
    ([failed] telling whether the read had returned an error), in
    [quit <- 1]; or it has returned.  Both channels are unbuffered
    (lines 36 and 106), so each send waits for its receiver. *)
Inductive reader_pc : Type :=
| InRead
| InSendError (e : error) (failed : bool)
| InSendQuit
| ReaderReturned.

Record ReaderState : Type := mkReader {
  buffer : list byte;      (* p *)
  rpc : reader_pc
}.

(** What lets the reader go on: [conn.Read] returns, the consumer of the
    error stream receives the event, the loop receives from [quit]. *)
Inductive reader_event : Type :=
| ReadReturns (r : read_outcome)
| ErrorReceived
| QuitReceived.

Definition is_some {A} (o : option A) : bool :=
  match o with Some _ => true | None => false end.

(** The body of [readError], from one blocking point to the next. *)
Definition reader_step (rd : ReaderState) (ev : reader_event)
  : option ReaderState :=
  match rpc rd, ev with
  | InRead, ReadReturns r =>
      let '(p, n, err) := conn_Read (buffer rd) r in
      let e := NewNotificationError (firstn n p) err in
      Some (mkReader p (InSendError e (is_some err)))
  | InSendError _ failed, ErrorReceived =>
      Some (mkReader (buffer rd) (if failed then InSendQuit else InRead))
  | InSendQuit, QuitReceived =>
      Some (mkReader (buffer rd) ReaderReturned)
  | _, _ => None
  end.

Fixpoint reader_run (rd : ReaderState) (evs : list reader_event)
  : option ReaderState :=
  match evs with
  | [] => Some rd
  | ev :: evs =>
      match reader_step rd ev with
      | Some rd' => reader_run rd' evs
      | None => None
      end
  end.

(** [readError] as [connect] starts it: [p := make([]byte, 6, 6)]. *)
Definition readError : ReaderState := mkReader (repeat x00 6) InRead.

(** The events [readError] has handed to the consumer of the error
    stream during a run. *)
Fixpoint reader_published (rd : ReaderState) (evs : list reader_event)
  : list error :=
  match evs with
  | [] => []
  | ev :: evs =>
      match reader_step rd ev with
      | Some rd' =>
          match rpc rd, ev with
          | InSendError e _, ErrorReceived => e :: reader_published rd' evs
          | _, _ => reader_published rd' evs
          end
      | None => []
      end
  end.

Definition is_quit_received (ev : reader_event) : bool :=
  match ev with QuitReceived => true | _ => false end.

End Reader.

(* ================================================================== *)
(** ** An instance of the externals, for running the model *)

(** [encoding/hex]: one hexadecimal digit. *)
Definition fromHexChar (c : ascii) : option Z :=
  let n := Z.of_nat (nat_of_ascii c) in
  if (48 <=? n) && (n <=? 57) then Some (n - 48)
  else if (97 <=? n) && (n <=? 102) then Some (n - 97 + 10)
  else if (65 <=? n) && (n <=? 70) then Some (n - 65 + 10)
  else None.

Definition ErrLength : error := LibError "encoding/hex: odd length hex string".
Definition InvalidByteError : error := LibError "encoding/hex: invalid byte".

Fixpoint hex_decode (s : string) : list byte * option error :=
  match s with
  | EmptyString => ([], None)
  | String p EmptyString =>
      match fromHexChar p with
      | Some _ => ([], Some ErrLength)
      | None => ([], Some InvalidByteError)
      end
  | String p (String q rest) =>
      match fromHexChar p, fromHexChar q with
      | Some a, Some b =>
          let (l, e) := hex_decode rest in
          (byte_of_Z (a * 16 + b) :: l, e)
      | _, _ => ([], Some InvalidByteError)
      end
  end.

(** A payload that is its own marshalling outcome, and an error event that
    keeps the two arguments it is made from (the specification's
    ErrorEvent: raw response bytes, underlying transport error if any). *)
#[local] Instance scripted : Externals := {|
  Payload := list byte * option error;
  MarshalJSON := fun p => p;
  NewNotificationError := NotificationError;
  hex_DecodeString := hex_decode
|}.

Definition ok_env (t : Z) : Env := mkEnv None None None t None.

(** Sample inputs: the notification of the specification's scenario
    (token "ab12", 3600 seconds, a ten-byte payload), payloads around the
    256-byte limit, a token that is not hexadecimal, and environments in
    which one call fails. *)
Definition demo : Notification :=
  mkNotification "ab12" 3600 (repeat x61 10, None).
Definition oversized : Notification :=
  mkNotification "ab12" 3600 (repeat x61 257, None).
Definition full_size : Notification :=
  mkNotification "ab12" 3600 (repeat x61 256, None).
Definition bad_token : Notification :=
  mkNotification "xyz" 3600 (repeat x61 10, None).

Definition broken_pipe : error := LibError "write: broken pipe".
Definition handshake_failure : error := LibError "tls: handshake failure".
Definition write_fails (t : Z) : Env := mkEnv None None None t (Some broken_pipe).
Definition handshake_fails (t : Z) : Env :=
  mkEnv None None (Some handshake_failure) t None.

Definition close_failure : error := LibError "close: bad file descriptor".
Definition close_fails (t : Z) : Env := mkEnv (Some close_failure) None None t None.

(** The state a run from the fresh client ends in. *)
Definition state_after (evs : list event) : LoopState :=
  match run init evs with
  | Some s => s
  | None => init
  end.

Definition connected_world : World := mkWorld (mkApn (Some 0%nat) 7) 1 [].

Definition reconnecting_run : list event :=
  [Submit demo (ok_env 0); IdleTimeout (ok_env 5);
   Submit demo (handshake_fails 9); Submit demo (ok_env 9)].

Definition failing_write_run : list event :=
  [Submit demo (ok_env 0); IdleTimeout (ok_env 5);
   Submit demo (write_fails 9); Submit demo (ok_env 9)].

Definition mixed_run : list event :=
  [Submit demo (ok_env 0); Submit bad_token (ok_env 1);
   QuitSignal (ok_env 2); Submit demo (handshake_fails 3);
   Submit demo (write_fails 4)].

(** A connection is made and the idle timeout ends it; the read that was
    pending on it then fails. *)
Definition timed_out_run : list event :=
  [Submit demo (ok_env 0); IdleTimeout (ok_env 5)].

Definition closed_connection : error :=
  LibError "use of closed network connection".

Definition failed_read : read_outcome := mkRead [] (Some closed_connection).

(* ================================================================== *)
(** ** The wire format, in the words of the specification *)

(** The [n]-byte big-endian representation of [v]: byte [i] from the
    right is the [i]-th base-256 digit of [v]. *)
Definition be_bytes (n : nat) (v : Z) : list byte :=
  map (fun i => byte_of_Z (v / 256 ^ Z.of_nat i)) (rev (seq 0 n)).

(** push-request frame =
    u8 command(=1) | u32 identifier | u32 expiry | u16 tokenLen |
    tokenBytes | u16 payloadLen | payloadBytes, all integers big-endian. *)
Definition encodePushFrame (ident expiry : Z) (tokenBytes payloadBytes : list byte)
  : list byte :=
  be_bytes 1 1 ++ be_bytes 4 ident ++ be_bytes 4 expiry
  ++ be_bytes 2 (Z.of_nat (List.length tokenBytes)) ++ tokenBytes
  ++ be_bytes 2 (Z.of_nat (List.length payloadBytes)) ++ payloadBytes.

(* ================================================================== *)
(** ** Observations on a trace *)

(** The established connections that have not been closed. *)
Definition live_step (l : list nat) (a : action) : list nat :=
  match a with
  | HandshakeOk c => c :: l
  | ConnClose c _ => remove Nat.eq_dec c l
  | _ => l
  end.

Definition live (tr : list action) : list nat := fold_left live_step tr [].

(** The sockets [net.Dial] opened that have not been closed. *)
Definition open_step (l : list nat) (a : action) : list nat :=
  match a with
  | DialOk c => c :: l
  | ConnClose c _ => remove Nat.eq_dec c l
  | _ => l
  end.

Definition open_sockets (tr : list action) : list nat := fold_left open_step tr [].

Definition olist {A} (o : option A) : list A :=
  match o with Some a => [a] | None => [] end.

(** At every instant of a trace, that is after each of its prefixes, at
    most one established connection is open. *)
Definition at_most_one_live (tr : list action) : Prop :=
  forall p rest, tr = p ++ rest -> (List.length (live p) <= 1)%nat.

(** The prefixes of an explicit list of actions, checked one by one. *)
Fixpoint stays_at_most_one (l : list nat) (acts : list action) : Prop :=
  (List.length l <= 1)%nat /\
  match acts with
  | [] => True
  | a :: acts => stays_at_most_one (live_step l a) acts
  end.

(** The frames handed to [a.conn.Write], in order. *)
Definition written_frames (tr : list action) : list (list byte) :=
  flat_map (fun a => match a with ConnWrite _ d _ => [d] | _ => [] end) tr.

(** The identifier field of a push-request frame: bytes 1 to 4. *)
Definition frame_identifier (frame : list byte) : Z :=
  be_value (firstn 4 (skipn 1 frame)).

Definition frame_ids (tr : list action) : list Z :=
  map frame_identifier (written_frames tr).

(** The results handed back on the callers' channels, in order. *)
Definition deliveries (tr : list action) : list (nat * option error) :=
  flat_map (fun a => match a with Deliver ch r => [(ch, r)] | _ => [] end) tr.

Definition dial_attempts (tr : list action) : nat :=
  List.length (filter (fun a => match a with DialOk _ | DialFail _ => true | _ => false end) tr).

Definition closes (tr : list action) : nat :=
  List.length (filter (fun a => match a with ConnClose _ _ => true | _ => false end) tr).

Section Observations.

Context {ext : Externals}.

(** What a step added to the trace. *)
Definition added (s s' : LoopState) : list action :=
  skipn (List.length (trace (world s))) (trace (world s')).

Definition is_submit (e : event) : bool :=
  match e with Submit _ _ | SubmitNil _ => true | _ => false end.

Definition is_nil_submit (e : event) : bool :=
  match e with SubmitNil _ => true | _ => false end.

Definition is_close_call (e : event) : bool :=
  match e with CloseCall _ => true | _ => false end.

Definition submits (evs : list event) : nat := List.length (filter is_submit evs).

(** The notification passes the three checks of [send]: [send] goes on
    to [a.conn.Write]. *)
Definition accepted (n : Notification) : Prop :=
  snd (hex_DecodeString (DeviceToken n)) = None
  /\ snd (MarshalJSON (payload n)) = None
  /\ (List.length (fst (MarshalJSON (payload n))) <= 256)%nat.

(** At least one of the three checks of [send] fails. *)
Definition rejected (n : Notification) : Prop :=
  snd (hex_DecodeString (DeviceToken n)) <> None
  \/ snd (MarshalJSON (payload n)) <> None
  \/ (256 < List.length (fst (MarshalJSON (payload n))))%nat.

(** The frame [send] builds for [n] when the counter is [ident]. *)
Definition frame_of (env : Env) (n : Notification) (ident : Z) : list byte :=
  pushPackage ident (expiry_of env n)
    (fst (hex_DecodeString (DeviceToken n)))
    (fst (MarshalJSON (payload n))).

(** The value [send] returns after [a.conn.Write] returned [err]. *)
Definition write_outcome (err : option error) : option error :=
  match err with
  | Some err => Some (Errorf "write socket error: %s" err)
  | None => None
  end.

(** The error of the three checks of [send], if one fails. *)
Definition validation_error (n : Notification) : option error :=
  let (_, err) := hex_DecodeString (DeviceToken n) in
  match err with
  | Some err => Some (Errorf "convert token to hex error: %s" err)
  | None =>
      let (payloadbyte, err) := MarshalJSON (payload n) in
      match err with
      | Some err => Some (Errorf "convert payload to json: %s" err)
      | None =>
          if Z.of_nat (List.length payloadbyte) >? maxPayloadBytes
          then Some (ErrorfBytes "payload json too large: %s" payloadbyte)
          else None
      end
  end.

(** ** The transitions of the loop, one constructor per path *)

Definition st (c : option nat) (ident : Z) (f : nat) (tr : list action)
  (ph : phase) (ch : nat) : LoopState :=
  mkLoop (mkWorld (mkApn c ident) f tr) ph ch.

(** What [Close] does to the recorded connection [c]. *)
Definition closing (c : option nat) (cr : option error) : list action :=
  match c with
  | Some c => [ConnClose c cr]
  | None => []
  end.

Definition close_value (c : option nat) (cr : option error) : option error :=
  match c with
  | Some _ => cr
  | None => None
  end.

(** What lines 169-173 do. *)
Definition leaving (c : option nat) (cr : option error) : list action :=
  closing c cr ++
  match close_value c cr with
  | Some e => [Publish (NewNotificationError [] (Some e))]
  | None => []
  end.

Definition wakes_select (e : event) (env : Env) : Prop :=
  e = QuitSignal env \/ e = IdleTimeout env.

Inductive transition : LoopState -> event -> LoopState -> Prop :=
| t_close_last_fails c ident f tr ch n env e :
    close_value c (close_result env) = Some e ->
    transition (st c ident f tr Idle ch) (Submit n env)
      (st None ident f
         (tr ++ closing c (close_result env)
             ++ [Deliver ch (Some (Errorf "close last connection failed: %s" e))])
         Idle (S ch))
| t_dial_fails c ident f tr ch n env e :
    close_value c (close_result env) = None ->
    dial_result env = Some e ->
    transition (st c ident f tr Idle ch) (Submit n env)
      (st None ident f
         (tr ++ closing c (close_result env)
             ++ [DialFail e;
                 Deliver ch (Some (Errorf "connect to server error: %d" e))])
         Idle (S ch))
| t_handshake_fails c ident f tr ch n env e :
    close_value c (close_result env) = None ->
    dial_result env = None ->
    handshake_result env = Some e ->
    transition (st c ident f tr Idle ch) (Submit n env)
      (st None ident (S f)
         (tr ++ closing c (close_result env)
             ++ [DialOk f; HandshakeFail f e;
                 Deliver ch (Some (Errorf "handshake server error: %s" e))])
         Idle (S ch))
| t_connected_rejected c ident f tr ch n env err :
    close_value c (close_result env) = None ->
    dial_result env = None ->
    handshake_result env = None ->
    validation_error n = Some err ->
    transition (st c ident f tr Idle ch) (Submit n env)
      (st (Some f) ident (S f)
         (tr ++ closing c (close_result env)
             ++ [DialOk f; HandshakeOk f; SpawnReader f f;
                 Deliver ch (Some err)])
         (Active f) (S ch))
| t_connected_written c ident f tr ch n env :
    close_value c (close_result env) = None ->
    dial_result env = None ->
    handshake_result env = None ->
    validation_error n = None ->
    transition (st c ident f tr Idle ch) (Submit n env)
      (st (Some f) (uint32 (ident + 1)) (S f)
         (tr ++ closing c (close_result env)
             ++ [DialOk f; HandshakeOk f; SpawnReader f f;
                 ConnWrite f (frame_of env n ident) (write_result env);
                 Deliver ch (write_outcome (write_result env))])
         (Active f) (S ch))
| t_rejected c ident f tr q ch n env err :
    validation_error n = Some err ->
    transition (st c ident f tr (Active q) ch) (Submit n env)
      (st c ident f (tr ++ [Deliver ch (Some err)]) (Active q) (S ch))
| t_written c ident f tr q ch n env :
    validation_error n = None ->
    transition (st (Some c) ident f tr (Active q) ch) (Submit n env)
      (st (Some c) (uint32 (ident + 1)) f
         (tr ++ [ConnWrite c (frame_of env n ident) (write_result env);
                 Deliver ch (write_outcome (write_result env))])
         (Active q) (S ch))
| t_nil_dereference ident f tr q ch n env :
    validation_error n = None ->
    transition (st None ident f tr (Active q) ch) (Submit n env)
      (st None (uint32 (ident + 1)) f (tr ++ [NilDereference]) Crashed (S ch))
| t_leave_active c ident f tr q ch e env :
    wakes_select e env ->
    transition (st c ident f tr (Active q) ch) e
      (st None ident f (tr ++ leaving c (close_result env)) Idle ch)
| t_close_call c ident f tr ph ch env :
    ph <> Crashed ->
    transition (st c ident f tr ph ch) (CloseCall env)
      (st None ident f
         (tr ++ closing c (close_result env)
             ++ [CloseReturned (close_value c (close_result env))])
         ph ch)
| t_nil_close_last_fails c ident f tr ch env e :
    close_value c (close_result env) = Some e ->
    transition (st c ident f tr Idle ch) (SubmitNil env)
      (st None ident f
         (tr ++ closing c (close_result env)
             ++ [Deliver ch (Some (Errorf "close last connection failed: %s" e))])
         Idle (S ch))
| t_nil_dial_fails c ident f tr ch env e :
    close_value c (close_result env) = None ->
    dial_result env = Some e ->
    transition (st c ident f tr Idle ch) (SubmitNil env)
      (st None ident f
         (tr ++ closing c (close_result env)
             ++ [DialFail e;
                 Deliver ch (Some (Errorf "connect to server error: %d" e))])
         Idle (S ch))
| t_nil_handshake_fails c ident f tr ch env e :
    close_value c (close_result env) = None ->
    dial_result env = None ->
    handshake_result env = Some e ->
    transition (st c ident f tr Idle ch) (SubmitNil env)
      (st None ident (S f)
         (tr ++ closing c (close_result env)
             ++ [DialOk f; HandshakeFail f e;
                 Deliver ch (Some (Errorf "handshake server error: %s" e))])
         Idle (S ch))
| t_nil_connected c ident f tr ch env :
    close_value c (close_result env) = None ->
    dial_result env = None ->
    handshake_result env = None ->
    transition (st c ident f tr Idle ch) (SubmitNil env)
      (st (Some f) ident (S f)
         (tr ++ closing c (close_result env)
             ++ [DialOk f; HandshakeOk f; SpawnReader f f; NilDereference])
         Crashed (S ch))
| t_nil_active c ident f tr q ch env :
    transition (st c ident f tr (Active q) ch) (SubmitNil env)
      (st c ident f (tr ++ [NilDereference]) Crashed (S ch)).

Definition connection_invariant (s : LoopState) : Prop :=
  live (trace (world s)) = olist (conn (apn (world s)))
  /\ at_most_one_live (trace (world s)).

(** Where the loop waits and what the client records. *)
Definition phase_invariant (s : LoopState) : Prop :=
  (pc s = Idle -> conn (apn (world s)) = None)
  /\ (forall q, pc s = Active q ->
        conn (apn (world s)) = None \/ conn (apn (world s)) = Some q).

(** The [k]-th frame carries the identifier [k] modulo 2^32, and the
    counter is the number of frames written, modulo 2^32. *)
Definition identifier_invariant (s : LoopState) : Prop :=
  let k := List.length (written_frames (trace (world s))) in
  frame_ids (trace (world s)) = map (fun i => uint32 (Z.of_nat i)) (seq 0 k)
  /\ (pc s <> Crashed -> identifier (apn (world s)) = uint32 (Z.of_nat k)).


(** The error [connect] returns when the dial or the handshake fails. *)
Definition connect_error (env : Env) : option error :=
  match dial_result env, handshake_result env with
  | Some e, _ => Some (Errorf "connect to server error: %d" e)
  | None, Some e => Some (Errorf "handshake server error: %s" e)
  | None, None => None
  end.

(** A request that passes the checks, served with a dial and a handshake
    that succeed if they are needed. *)
Definition good_submit (e : event) : Prop :=
  match e with
  | Submit n env =>
      accepted n /\ dial_result env = None /\ handshake_result env = None
  | _ => False
  end.

End Observations.

(** ** More observations on a trace *)

(** The sockets whose handshake succeeded, the readers started, the
    sockets closed, dialled, and left after a failed handshake, and the
    events published on the error channel, each in order. *)
Definition established (tr : list action) : list nat :=
  flat_map (fun a => match a with HandshakeOk c => [c] | _ => [] end) tr.

Definition spawned (tr : list action) : list (nat * nat) :=
  flat_map (fun a => match a with SpawnReader c q => [(c, q)] | _ => [] end) tr.

Definition closed (tr : list action) : list nat :=
  flat_map (fun a => match a with ConnClose c _ => [c] | _ => [] end) tr.

Definition dialed (tr : list action) : list nat :=
  flat_map (fun a => match a with DialOk c => [c] | _ => [] end) tr.

Definition failed_handshakes (tr : list action) : list nat :=
  flat_map (fun a => match a with HandshakeFail c _ => [c] | _ => [] end) tr.

Definition published (tr : list action) : list error :=
  flat_map (fun a => match a with Publish e => [e] | _ => [] end) tr.

(** Every write of [acts] goes to the one established connection open at
    that moment, [l] being the open ones before [acts]. *)
Fixpoint writes_checked (l : list nat) (acts : list action) : Prop :=
  match acts with
  | [] => True
  | a :: acts =>
      match a with
      | ConnWrite c _ _ => l = [c]
      | _ => True
      end
      /\ writes_checked (live_step l a) acts
  end.

Section MoreObservations.

Context {ext : Externals}.

(** Sockets are numbered as they are dialled; a socket is established or
    has failed its handshake, not both. *)
Definition numbering_invariant (s : LoopState) : Prop :=
  let tr := trace (world s) in
  let f := fresh (world s) in
  dialed tr = seq 0 f
  /\ (forall c, In c (established tr) -> (c < f)%nat)
  /\ (forall c, In c (failed_handshakes tr) -> (c < f)%nat)
  /\ (forall c, In c (established tr) -> ~ In c (failed_handshakes tr))
  /\ NoDup (established tr).

(** Only established connections are closed, each at most once, and the
    recorded one has not been closed. *)
Definition closing_invariant (s : LoopState) : Prop :=
  let tr := trace (world s) in
  NoDup (closed tr)
  /\ (forall c, In c (closed tr) -> In c (established tr))
  /\ (forall c, conn (apn (world s)) = Some c ->
        In c (established tr) /\ ~ In c (closed tr)).

(** The sockets still open are the dialled ones that were not closed. *)
Definition open_invariant (s : LoopState) : Prop :=
  let tr := trace (world s) in
  forall c, In c (open_sockets tr) <-> In c (dialed tr) /\ ~ In c (closed tr).

(** The loop listens on the quit channel of a connection numbered [f0]
    or later, if on any, and the next connection gets such a number. *)
Definition quit_invariant (f0 : nat) (s : LoopState) : Prop :=
  (f0 <= fresh (world s))%nat
  /\ forall q, pc s = Active q -> (f0 <= q)%nat.

(** The error [connect] returns when closing the previous connection
    fails. *)
Definition is_close_last_error (r : option error) : Prop :=
  exists e, r = Some (Errorf "close last connection failed: %s" e).

End MoreObservations.

Ltac run_monad :=
  unfold bind, ret, emit, panic, get_conn, set_conn, get_identifier,
    set_identifier; cbn [apn conn identifier fresh trace fst snd].

(* ================================================================== *)
(** * Bytes and big-endian numbers *)

Lemma Z_of_byte_of_Z (z : Z) : Z_of_byte (byte_of_Z z) = z mod 256.
Proof.
  unfold Z_of_byte, byte_of_Z, uint8. change (2 ^ 8) with 256.
  assert (Hr : 0 <= z mod 256 < 256) by (apply Z.mod_pos_bound; lia).
  destruct (Byte.of_N (Z.to_N (z mod 256))) as [b|] eqn:E.
  - apply Byte.to_of_N in E. rewrite E. lia.
  - apply Byte.of_N_None_iff in E. lia.
Qed.

Lemma Z_of_byte_range (b : byte) : 0 <= Z_of_byte b < 256.
Proof.
  unfold Z_of_byte. pose proof (Byte.to_N_bounded b). lia.
Qed.

Lemma PutUint16_be (v : Z) : PutUint16 v = be_bytes 2 v.
Proof.
  unfold PutUint16, be_bytes. cbn [seq rev app map].
  rewrite Z.shiftr_div_pow2 by lia.
  change (256 ^ Z.of_nat 1) with (2 ^ 8).
  change (256 ^ Z.of_nat 0) with 1. now rewrite Z.div_1_r.
Qed.

Lemma PutUint32_be (v : Z) : PutUint32 v = be_bytes 4 v.
Proof.
  unfold PutUint32, be_bytes. cbn [seq rev app map].
  rewrite !Z.shiftr_div_pow2 by lia.
  change (256 ^ Z.of_nat 3) with (2 ^ 24).
  change (256 ^ Z.of_nat 2) with (2 ^ 16).
  change (256 ^ Z.of_nat 1) with (2 ^ 8).
  change (256 ^ Z.of_nat 0) with 1. now rewrite Z.div_1_r.
Qed.

Lemma byte_of_Z_mod (z : Z) : byte_of_Z (z mod 256) = byte_of_Z z.
Proof.
  unfold byte_of_Z, uint8. change (2 ^ 8) with 256.
  now rewrite Z.mod_mod by lia.
Qed.

Lemma be_bytes_S (n : nat) (v : Z) :
  be_bytes (S n) v = byte_of_Z (v / 256 ^ Z.of_nat n) :: be_bytes n v.
Proof.
  unfold be_bytes. rewrite seq_S, rev_app_distr. reflexivity.
Qed.

Lemma be_bytes_length (n : nat) (v : Z) : List.length (be_bytes n v) = n.
Proof.
  unfold be_bytes. now rewrite length_map, length_rev, length_seq.
Qed.

(** The digits of [v] and of [v mod 256^n] agree on the low [n] places. *)
Lemma be_bytes_mod (n : nat) (v : Z) :
  be_bytes n (v mod 256 ^ Z.of_nat n) = be_bytes n v.
Proof.
  unfold be_bytes. apply map_ext_in. intros i Hi.
  apply in_rev, in_seq in Hi.
  rewrite <- (byte_of_Z_mod (v / _)), <- (byte_of_Z_mod (_ / _)). f_equal.
  replace (Z.of_nat n) with (Z.of_nat i + (Z.of_nat n - Z.of_nat i)) by lia.
  rewrite Z.pow_add_r by lia.
  set (a := 256 ^ Z.of_nat i). set (k := Z.of_nat n - Z.of_nat i).
  assert (Ha : 0 < a) by (apply Z.pow_pos_nonneg; lia).
  assert (Hk : 0 < 256 ^ k) by (apply Z.pow_pos_nonneg; lia).
  rewrite Z.rem_mul_r by lia.
  rewrite Z.add_comm, Z.mul_comm, Z.div_add_l by lia.
  rewrite (Z.div_small (v mod a)) by (apply Z.mod_pos_bound; lia).
  rewrite Z.add_0_r.
  replace k with (1 + (k - 1)) by lia.
  rewrite Z.pow_add_r by lia. change (256 ^ 1) with 256.
  assert (0 < 256 ^ (k - 1)) by (apply Z.pow_pos_nonneg; lia).
  rewrite Z.rem_mul_r by lia.
  rewrite (Z.mul_comm 256), Z.mod_add by lia.
  now rewrite Z.mod_mod by lia.
Qed.

Lemma be_value_acc (l : list byte) (acc : Z) :
  fold_left (fun a b => a * 256 + Z_of_byte b) l acc
  = acc * 256 ^ Z.of_nat (List.length l) + be_value l.
Proof.
  unfold be_value. revert acc.
  induction l as [|b l IH]; intros acc.
  - cbn. lia.
  - cbn [fold_left List.length]. rewrite IH, (IH (0 * 256 + _)).
    rewrite Nat2Z.inj_succ, Z.pow_succ_r by lia. ring.
Qed.

Lemma be_value_cons (b : byte) (l : list byte) :
  be_value (b :: l) = Z_of_byte b * 256 ^ Z.of_nat (List.length l) + be_value l.
Proof.
  unfold be_value at 1. cbn [fold_left]. rewrite be_value_acc. ring.
Qed.

(** Reading back the big-endian representation gives the number, modulo
    the width. *)
Lemma be_value_be_bytes (n : nat) (v : Z) :
  be_value (be_bytes n v) = v mod 256 ^ Z.of_nat n.
Proof.
  induction n as [|n IH].
  - cbn. now rewrite Z.mod_1_r.
  - rewrite be_bytes_S, be_value_cons, be_bytes_length, IH, Z_of_byte_of_Z.
    rewrite Nat2Z.inj_succ, Z.pow_succ_r by lia.
    assert (0 < 256 ^ Z.of_nat n) by (apply Z.pow_pos_nonneg; lia).
    rewrite (Z.mul_comm 256), Z.rem_mul_r by lia. ring.
Qed.

Lemma be_value_be_bytes_4 (v : Z) :
  0 <= v < 2 ^ 32 -> be_value (be_bytes 4 v) = v.
Proof.
  intros Hv. rewrite be_value_be_bytes.
  change (256 ^ Z.of_nat 4) with (2 ^ 32). now apply Z.mod_small.
Qed.

Lemma uint32_range (z : Z) : 0 <= uint32 z < 2 ^ 32.
Proof. unfold uint32. apply Z.mod_pos_bound. lia. Qed.

Lemma be_bytes_uint32 (v : Z) : be_bytes 4 (uint32 v) = be_bytes 4 v.
Proof. exact (be_bytes_mod 4 v). Qed.

Lemma be_bytes_uint16 (v : Z) : be_bytes 2 (uint16 v) = be_bytes 2 v.
Proof. exact (be_bytes_mod 2 v). Qed.

Lemma be_bytes_1_1 : be_bytes 1 1 = [x01].
Proof. reflexivity. Qed.

(** With a non-negative lifetime that does not overflow the duration,
    the expiry is the current unix time plus the lifetime. *)
Lemma Time_Unix_after (t secs : Z) :
  - 2 ^ 63 <= secs * Second < 2 ^ 63 ->
  Time_Unix (Time_Add t (Duration_mul secs Second)) = Time_Unix t + secs.
Proof.
  intros Hr. unfold Time_Unix, Time_Add, Duration_mul, int64.
  rewrite Z.mod_small by lia.
  replace (secs * Second + 2 ^ 63 - 2 ^ 63) with (secs * Second) by lia.
  unfold Second in *. now rewrite Z.div_add by lia.
Qed.

(** The buffer [send] fills is the frame of the specification. *)
Lemma pushPackage_layout (ident expiry : Z) (tokenbin payloadbyte : list byte) :
  pushPackage ident expiry tokenbin payloadbyte
  = encodePushFrame ident expiry tokenbin payloadbyte.
Proof.
  unfold pushPackage, encodePushFrame, binary_Write, big_endian.
  rewrite !PutUint32_be, !PutUint16_be, be_bytes_uint32, !be_bytes_uint16.
  cbn [app]. rewrite <- !app_assoc. reflexivity.
Qed.

Lemma encodePushFrame_length (ident expiry : Z) (tok pl : list byte) :
  List.length (encodePushFrame ident expiry tok pl)
  = (13 + List.length tok + List.length pl)%nat.
Proof.
  unfold encodePushFrame. rewrite !length_app, !be_bytes_length. lia.
Qed.

Lemma frame_identifier_encode (ident expiry : Z) (tok pl : list byte) :
  frame_identifier (encodePushFrame ident expiry tok pl) = uint32 ident.
Proof.
  unfold frame_identifier, encodePushFrame.
  change (be_bytes 1 1) with [byte_of_Z (1 / 256 ^ Z.of_nat 0)].
  cbn [app skipn].
  rewrite firstn_app, be_bytes_length, Nat.sub_diag, firstn_O, app_nil_r.
  rewrite firstn_all2 by (rewrite be_bytes_length; lia).
  rewrite be_value_be_bytes. reflexivity.
Qed.

(* ================================================================== *)
(** * send *)

Section SendFacts.

Context {ext : Externals}.

(** [send] on a notification that passes the checks. *)
Lemma send_accepted (env : Env) (n : Notification) (w : World) :
  accepted n ->
  send env n w =
  match conn (apn w) with
  | Some c =>
      Done (write_outcome (write_result env))
        (mkWorld (mkApn (Some c) (uint32 (identifier (apn w) + 1))) (fresh w)
           (trace w ++ [ConnWrite c (frame_of env n (identifier (apn w)))
                          (write_result env)]))
  | None =>
      Panicked
        (mkWorld (mkApn None (uint32 (identifier (apn w) + 1))) (fresh w)
           (trace w ++ [NilDereference]))
  end.
Proof.
  intros (Hh & Hm & Hl). unfold send, frame_of.
  destruct (hex_DecodeString (DeviceToken n)) as [tok eh].
  destruct (MarshalJSON (payload n)) as [pl em].
  cbn [fst snd] in *. subst eh em.
  unfold maxPayloadBytes.
  destruct (Z.gtb_spec (Z.of_nat (List.length pl)) 256) as [Hgt|_]; [lia|].
  unfold conn_Write. run_monad.
  destruct (conn (apn w)) as [c|]; [|reflexivity].
  run_monad. destruct (write_result env); reflexivity.
Qed.

(** [send] on a notification that fails a check: an error, and the world
    is the one it started from. *)
Lemma send_rejected (env : Env) (n : Notification) (w : World) :
  rejected n -> exists err, send env n w = Done (Some err) w.
Proof.
  intros Hr. unfold rejected in Hr. unfold send.
  destruct (hex_DecodeString (DeviceToken n)) as [tok eh].
  destruct (MarshalJSON (payload n)) as [pl em].
  cbn [fst snd] in Hr.
  destruct eh as [eh|]; [eexists; reflexivity|].
  destruct em as [em|]; [eexists; reflexivity|].
  destruct Hr as [Hr|[Hr|Hr]]; try congruence.
  unfold maxPayloadBytes.
  destruct (Z.gtb_spec (Z.of_nat (List.length pl)) 256) as [_|Hle]; [|lia].
  eexists; reflexivity.
Qed.

Lemma accepted_or_rejected (n : Notification) : accepted n \/ rejected n.
Proof.
  unfold accepted, rejected.
  destruct (snd (hex_DecodeString (DeviceToken n))); [right; left; congruence|].
  destruct (snd (MarshalJSON (payload n))); [right; right; left; congruence|].
  destruct (le_lt_dec (List.length (fst (MarshalJSON (payload n)))) 256);
    [left; auto | right; right; right; assumption].
Qed.

(** C2.  When [send] reaches [a.conn.Write], it hands over exactly one
    byte sequence, and this is the push-request frame of the wire format:
    the command byte 1, the identifier counter on four bytes, the expiry
    in unix seconds on four bytes, the token length on two bytes and the
    token, the payload length on two bytes and the payload, integers
    big-endian; its length is 13 plus the two lengths. *)
Theorem send_writes_push_frame (env : Env) (n : Notification) (w : World) (c : nat) :
  accepted n ->
  conn (apn w) = Some c ->
  let tokenBytes := fst (hex_DecodeString (DeviceToken n)) in
  let payloadBytes := fst (MarshalJSON (payload n)) in
  exists data r w',
    send env n w = Done r w'
    /\ trace w' = trace w ++ [ConnWrite c data (write_result env)]
    /\ data = [x01]
              ++ be_bytes 4 (identifier (apn w))
              ++ be_bytes 4 (expiry_of env n)
              ++ be_bytes 2 (Z.of_nat (List.length tokenBytes)) ++ tokenBytes
              ++ be_bytes 2 (Z.of_nat (List.length payloadBytes)) ++ payloadBytes
    /\ List.length data
       = (13 + List.length tokenBytes + List.length payloadBytes)%nat.
Proof.
  intros Ha Hc tokenBytes payloadBytes.
  rewrite (send_accepted env n w Ha), Hc.
  do 3 eexists. split; [reflexivity|]. split; [reflexivity|].
  unfold frame_of. rewrite pushPackage_layout. split.
  - unfold encodePushFrame. now rewrite be_bytes_1_1.
  - apply encodePushFrame_length.
Qed.

(** C7.  A payload that marshals to more than 256 bytes makes [send]
    return an error with nothing written and no frame built (the world is
    unchanged; when the token decodes and the marshalling itself reports
    no error, the error is the too-large one); a payload of exactly 256
    bytes passes this check and its frame is handed to the write. *)
Theorem oversized_payload_rejected (env : Env) (n : Notification) (w : World) :
  ((256 < List.length (fst (MarshalJSON (payload n))))%nat ->
   (exists err, send env n w = Done (Some err) w)
   /\ (snd (hex_DecodeString (DeviceToken n)) = None ->
       snd (MarshalJSON (payload n)) = None ->
       send env n w
       = Done (Some (ErrorfBytes "payload json too large: %s"
                       (fst (MarshalJSON (payload n))))) w))
  /\ (List.length (fst (MarshalJSON (payload n))) = 256%nat ->
      snd (hex_DecodeString (DeviceToken n)) = None ->
      snd (MarshalJSON (payload n)) = None ->
      forall c, conn (apn w) = Some c ->
      exists w',
        send env n w = Done (write_outcome (write_result env)) w'
        /\ trace w' = trace w ++ [ConnWrite c (frame_of env n (identifier (apn w)))
                                    (write_result env)]).
Proof.
  split.
  - intros Hlen. split.
    + apply send_rejected. right; right; assumption.
    + intros Hh Hm. unfold send.
      destruct (hex_DecodeString (DeviceToken n)) as [tok eh].
      destruct (MarshalJSON (payload n)) as [pl em].
      cbn [fst snd] in *. subst eh em. unfold maxPayloadBytes.
      destruct (Z.gtb_spec (Z.of_nat (List.length pl)) 256); [reflexivity|lia].
  - intros Hlen Hh Hm c Hc.
    rewrite send_accepted by (repeat split; auto; lia).
    rewrite Hc. eexists. split; reflexivity.
Qed.

(** C9.  A [send] that reaches the write advances the identifier counter
    by one (modulo 2^32) and makes one write attempt, whatever the write
    returns: when the write fails, [send] returns the write error and the
    counter has advanced all the same. *)
Theorem identifier_consumed_by_attempt (env : Env) (n : Notification) (w : World) (c : nat) :
  accepted n ->
  conn (apn w) = Some c ->
  exists w',
    send env n w = Done (write_outcome (write_result env)) w'
    /\ identifier (apn w') = uint32 (identifier (apn w) + 1)
    /\ (0 <= identifier (apn w) < 2 ^ 32 - 1 ->
        identifier (apn w') = identifier (apn w) + 1)
    /\ written_frames (trace w')
       = written_frames (trace w) ++ [frame_of env n (identifier (apn w))]
    /\ (forall e, write_result env = Some e ->
        send env n w = Done (Some (Errorf "write socket error: %s" e)) w').
Proof.
  intros Ha Hc. rewrite (send_accepted env n w Ha), Hc.
  eexists. split; [reflexivity|]. cbn [apn identifier trace].
  split; [reflexivity|]. split; [|split].
  - intros Hr. unfold uint32. apply Z.mod_small. lia.
  - unfold written_frames. rewrite flat_map_app. reflexivity.
  - intros e He. rewrite He. reflexivity.
Qed.

(** C10.  A [send] that fails one of its checks (the token does not
    decode, the payload does not marshal, or it marshals to more than 256
    bytes) returns an error and leaves the client as it was: same
    identifier counter, same connection, nothing written. *)
Theorem rejected_send_changes_nothing (env : Env) (n : Notification) (w : World) :
  rejected n ->
  exists err w',
    send env n w = Done (Some err) w'
    /\ w' = w
    /\ identifier (apn w') = identifier (apn w)
    /\ written_frames (trace w') = written_frames (trace w).
Proof.
  intros Hr. destruct (send_rejected env n w Hr) as [err He].
  exists err, w. auto.
Qed.

End SendFacts.

(* ================================================================== *)
(** * The loop: each step is one of the transitions *)

Section LoopFacts.

Context {ext : Externals}.

Lemma validation_error_None (n : Notification) :
  validation_error n = None <-> accepted n.
Proof.
  unfold validation_error, accepted, maxPayloadBytes.
  destruct (hex_DecodeString (DeviceToken n)) as [tok [eh|]];
  destruct (MarshalJSON (payload n)) as [pl [em|]]; cbn [fst snd];
    try (split; [discriminate | intros (? & ? & ?); discriminate]).
  destruct (Z.gtb_spec (Z.of_nat (List.length pl)) 256).
  - split; [discriminate | intros (_ & _ & ?); lia].
  - split; [intros _; repeat split; lia | reflexivity].
Qed.

Lemma validation_error_Some (n : Notification) (e : error) :
  validation_error n = Some e -> rejected n.
Proof.
  intros H. destruct (accepted_or_rejected n) as [Ha|Hr]; [|exact Hr].
  apply validation_error_None in Ha. congruence.
Qed.

Lemma send_eq (env : Env) (n : Notification) (w : World) :
  send env n w =
  match validation_error n with
  | Some e => Done (Some e) w
  | None =>
      match conn (apn w) with
      | Some c =>
          Done (write_outcome (write_result env))
            (mkWorld (mkApn (Some c) (uint32 (identifier (apn w) + 1))) (fresh w)
               (trace w ++ [ConnWrite c (frame_of env n (identifier (apn w)))
                              (write_result env)]))
      | None =>
          Panicked
            (mkWorld (mkApn None (uint32 (identifier (apn w) + 1))) (fresh w)
               (trace w ++ [NilDereference]))
      end
  end.
Proof.
  destruct (validation_error n) as [e|] eqn:E.
  - revert E. unfold validation_error, send, maxPayloadBytes.
    destruct (hex_DecodeString (DeviceToken n)) as [tok [eh|]];
      [intros [= <-]; reflexivity|].
    destruct (MarshalJSON (payload n)) as [pl [em|]];
      [intros [= <-]; reflexivity|].
    destruct (Z.of_nat (List.length pl) >? 256);
      [intros [= <-]; reflexivity | discriminate].
  - apply send_accepted. now apply validation_error_None.
Qed.

Lemma Close_eq (env : Env) (w : World) :
  Close env w
  = Done (close_value (conn (apn w)) (close_result env))
      (mkWorld (mkApn None (identifier (apn w))) (fresh w)
         (trace w ++ closing (conn (apn w)) (close_result env))).
Proof.
  unfold Close, conn_Close. run_monad.
  destruct w as [[[c|] ident] f tr]; cbn [apn conn identifier fresh trace closing close_value].
  - reflexivity.
  - now rewrite app_nil_r.
Qed.

Lemma step_transition (s s' : LoopState) (e : event) :
  step s e = Some s' -> transition s e s'.
Proof.
  destruct s as [[[c ident] f tr] ph ch].
  change (mkLoop (mkWorld (mkApn c ident) f tr) ph ch) with (st c ident f tr ph ch).
  unfold step. cbn [pc world chans st].
  destruct ph as [|q|]; destruct e as [n env|env|env|env|env];
    try discriminate; intros [= <-].
  - (* Idle, Submit *)
    unfold on_request_idle, connect, send_arg. unfold bind at 1 2. rewrite Close_eq.
    cbn [apn conn identifier fresh trace].
    destruct (close_value c (close_result env)) as [e|] eqn:Ec.
    { run_monad. rewrite <- app_assoc. now apply t_close_last_fails. }
    unfold bind at 1, net_Dial.
    destruct (dial_result env) as [e|] eqn:Ed.
    { run_monad. rewrite <- !app_assoc. cbn [app]. now apply t_dial_fails. }
    cbn [snd fst fresh trace apn]. unfold bind at 1, Handshake.
    destruct (handshake_result env) as [e|] eqn:Eh.
    { run_monad. rewrite <- !app_assoc. cbn [app]. now apply t_handshake_fails. }
    run_monad. rewrite send_eq. cbn [apn conn identifier fresh trace].
    destruct (validation_error n) as [err|] eqn:Ev.
    + run_monad. rewrite <- !app_assoc. cbn [app]. now apply t_connected_rejected.
    + run_monad. rewrite <- !app_assoc. cbn [app]. now apply t_connected_written.
  - (* Idle, CloseCall *)
    unfold on_close_call. unfold bind. rewrite Close_eq. unfold emit.
    cbn [apn conn identifier fresh trace]. rewrite <- app_assoc.
    apply t_close_call. discriminate.
  - (* Idle, SubmitNil *)
    unfold on_request_idle, connect, send_arg. unfold bind at 1 2. rewrite Close_eq.
    cbn [apn conn identifier fresh trace].
    destruct (close_value c (close_result env)) as [e|] eqn:Ec.
    { run_monad. rewrite <- app_assoc. now apply t_nil_close_last_fails. }
    unfold bind at 1, net_Dial.
    destruct (dial_result env) as [e|] eqn:Ed.
    { run_monad. rewrite <- !app_assoc. cbn [app]. now apply t_nil_dial_fails. }
    cbn [snd fst fresh trace apn]. unfold bind at 1, Handshake.
    destruct (handshake_result env) as [e|] eqn:Eh.
    { run_monad. rewrite <- !app_assoc. cbn [app]. now apply t_nil_handshake_fails. }
    run_monad. rewrite <- !app_assoc. cbn [app]. now apply t_nil_connected.
  - (* Active, Submit *)
    unfold on_request_active, send_arg. unfold bind. rewrite send_eq.
    cbn [apn conn identifier fresh trace].
    destruct (validation_error n) as [err|] eqn:Ev.
    + unfold emit. cbn [apn fresh trace]. now apply t_rejected.
    + destruct c as [c|].
      * unfold emit. cbn [apn fresh trace]. rewrite <- app_assoc. cbn [app].
        now apply t_written.
      * now apply t_nil_dereference.
  - (* Active, QuitSignal *)
    unfold on_leave_active. unfold bind. rewrite Close_eq.
    cbn [apn conn identifier fresh trace].
    replace (match match close_value c (close_result env) with
                   | Some err => emit (Publish (NewNotificationError [] (Some err)))
                   | None => ret tt
                   end _ with Done _ w => _ | Panicked w => _ end)
      with (st None ident f (tr ++ leaving c (close_result env)) Idle ch).
    { apply t_leave_active. now left. }
    unfold leaving.
    destruct (close_value c (close_result env)); run_monad.
    + now rewrite app_assoc.
    + now rewrite app_nil_r.
  - (* Active, IdleTimeout *)
    unfold on_leave_active. unfold bind. rewrite Close_eq.
    cbn [apn conn identifier fresh trace].
    replace (match match close_value c (close_result env) with
                   | Some err => emit (Publish (NewNotificationError [] (Some err)))
                   | None => ret tt
                   end _ with Done _ w => _ | Panicked w => _ end)
      with (st None ident f (tr ++ leaving c (close_result env)) Idle ch).
    { apply t_leave_active. now right. }
    unfold leaving.
    destruct (close_value c (close_result env)); run_monad.
    + now rewrite app_assoc.
    + now rewrite app_nil_r.
  - (* Active, CloseCall *)
    unfold on_close_call. unfold bind. rewrite Close_eq. unfold emit.
    cbn [apn conn identifier fresh trace]. rewrite <- app_assoc.
    apply t_close_call. discriminate.
  - (* Active, SubmitNil *)
    unfold on_request_active, send_arg. run_monad. apply t_nil_active.
Qed.

(** *** Runs *)

Lemma run_app (s : LoopState) (evs1 evs2 : list event) :
  run s (evs1 ++ evs2)
  = match run s evs1 with
    | Some s1 => run s1 evs2
    | None => None
    end.
Proof.
  revert s. induction evs1 as [|e evs1 IH]; intros s; cbn [run app].
  - reflexivity.
  - destruct (step s e); [apply IH | reflexivity].
Qed.

Lemma run_snoc (s s' : LoopState) (evs : list event) (e : event) :
  run s (evs ++ [e]) = Some s' ->
  exists s1, run s evs = Some s1 /\ step s1 e = Some s'.
Proof.
  rewrite run_app. destruct (run s evs) as [s1|]; [|discriminate].
  cbn [run]. destruct (step s1 e) as [s2|] eqn:E; [|discriminate].
  intros [= <-]. eauto.
Qed.

(** Induction over the reachable states. *)
Lemma reachable_ind (P : LoopState -> Prop) :
  P init ->
  (forall s e s', reachable s -> P s -> transition s e s' -> P s') ->
  forall s, reachable s -> P s.
Proof.
  intros Hinit Hstep s [evs Hrun]. revert s Hrun.
  induction evs as [|e evs IH] using rev_ind; intros s Hrun.
  - cbn in Hrun. injection Hrun as <-. exact Hinit.
  - apply run_snoc in Hrun. destruct Hrun as (s1 & Hrun & Hs).
    apply (Hstep s1 e s).
    + now exists evs.
    + now apply IH.
    + now apply step_transition.
Qed.

Lemma reachable_step (s s' : LoopState) (e : event) :
  reachable s -> step s e = Some s' -> reachable s'.
Proof.
  intros [evs Hrun] Hs. exists (evs ++ [e]).
  rewrite run_app, Hrun. cbn [run]. now rewrite Hs.
Qed.

(** A step is possible unless the process has crashed or the loop is not
    listening for the event. *)
Lemma step_defined (s : LoopState) (e : event) :
  pc s <> Crashed ->
  (pc s = Idle -> is_submit e = true \/ is_close_call e = true) ->
  exists s', step s e = Some s'.
Proof.
  intros Hc Hi. unfold step.
  destruct (pc s) as [|q|]; [|destruct e; eauto|congruence].
  destruct (Hi eq_refl) as [H|H]; destruct e; try discriminate; eauto.
Qed.

(** *** The live connection is the recorded one *)

Lemma live_app (tr acts : list action) :
  live (tr ++ acts) = fold_left live_step acts (live tr).
Proof. unfold live. apply fold_left_app. Qed.

Lemma at_most_one_app (tr acts : list action) :
  at_most_one_live tr ->
  (forall p rest, acts = p ++ rest ->
     (List.length (fold_left live_step p (live tr)) <= 1)%nat) ->
  at_most_one_live (tr ++ acts).
Proof.
  intros Htr Hacts p rest Heq.
  apply app_eq_app in Heq. destruct Heq as [l [[H1 H2]|[H1 H2]]].
  - (* the prefix lies inside tr *)
    now apply (Htr p l).
  - (* the prefix goes beyond tr *)
    subst p. rewrite live_app. now apply (Hacts l rest).
Qed.

Lemma stays_at_most_one_prefixes (l : list nat) (acts : list action) :
  stays_at_most_one l acts ->
  forall p rest, acts = p ++ rest ->
    (List.length (fold_left live_step p l) <= 1)%nat.
Proof.
  revert l. induction acts as [|a acts IH]; intros l [Hl H] p rest Heq.
  - destruct p; [exact Hl | discriminate].
  - destruct p as [|a' p]; [exact Hl|].
    injection Heq as <- Heq. cbn [fold_left]. eapply IH; eauto.
Qed.

Lemma remove_same (c : nat) : remove Nat.eq_dec c [c] = [].
Proof. cbn. destruct (Nat.eq_dec c c); congruence. Qed.

Lemma connection_invariant_step (s s' : LoopState) (e : event) :
  connection_invariant s -> transition s e s' -> connection_invariant s'.
Proof.
  intros [Hl Hp] Ht.
  destruct Ht; unfold connection_invariant, st in *;
    cbn [world apn conn trace] in *;
    (split;
     [ rewrite live_app, Hl
     | apply at_most_one_app; [exact Hp|];
       apply stays_at_most_one_prefixes; rewrite Hl ]);
    unfold leaving;
    try match goal with
        | c : option nat |- _ => destruct c as [?c|]
        end;
    cbn [olist closing close_value app fold_left live_step stays_at_most_one
           List.length] in *;
    rewrite ?remove_same;
    try match goal with
        | |- context [close_result ?env] => destruct (close_result env)
        end;
    cbn [olist closing close_value app fold_left live_step stays_at_most_one
           List.length] in *;
    rewrite ?remove_same;
    cbn [olist closing close_value app fold_left live_step stays_at_most_one
           List.length] in *;
    repeat split; auto; try discriminate.
Qed.

Lemma connection_invariant_reachable (s : LoopState) :
  reachable s -> connection_invariant s.
Proof.
  apply reachable_ind.
  - split; [reflexivity|]. intros p rest Heq.
    destruct p; [cbn; lia | discriminate].
  - intros s0 e s' _. apply connection_invariant_step.
Qed.

(** *** Where the loop waits *)

Lemma phase_invariant_step (s s' : LoopState) (e : event) :
  phase_invariant s -> transition s e s' -> phase_invariant s'.
Proof.
  intros [Hi Ha] Ht.
  destruct Ht; unfold phase_invariant, st in *; cbn [world apn conn pc] in *;
    split; try (intros; discriminate); auto;
    try (intros q' [= <-]; auto).
Qed.

Lemma phase_invariant_reachable (s : LoopState) :
  reachable s -> phase_invariant s.
Proof.
  apply reachable_ind.
  - split; [reflexivity | discriminate].
  - intros s0 e s' _. apply phase_invariant_step.
Qed.

Lemma idle_no_connection (s : LoopState) :
  reachable s -> pc s = Idle -> conn (apn (world s)) = None.
Proof.
  intros Hr. now destruct (phase_invariant_reachable s Hr).
Qed.

(** *** What a step adds to the trace *)

Lemma added_st c ident f tr ph ch c' ident' f' acts ph' ch' :
  added (st c ident f tr ph ch) (st c' ident' f' (tr ++ acts) ph' ch') = acts.
Proof.
  unfold added, st. cbn [world trace].
  rewrite skipn_app, Nat.sub_diag, skipn_all. reflexivity.
Qed.

Lemma transition_extends (s s' : LoopState) (e : event) :
  transition s e s' ->
  trace (world s') = trace (world s) ++ added s s'.
Proof.
  intros Ht. destruct Ht; rewrite added_st; reflexivity.
Qed.

(** *** A request received while idle *)

Lemma dial_attempts_app (a b : list action) :
  dial_attempts (a ++ b) = (dial_attempts a + dial_attempts b)%nat.
Proof. unfold dial_attempts. now rewrite filter_app, length_app. Qed.

Lemma deliveries_app (a b : list action) :
  deliveries (a ++ b) = deliveries a ++ deliveries b.
Proof. apply flat_map_app. Qed.

Lemma written_frames_app (a b : list action) :
  written_frames (a ++ b) = written_frames a ++ written_frames b.
Proof. apply flat_map_app. Qed.

Lemma idle_submit (s : LoopState) (n : Notification) (env : Env) :
  pc s = Idle ->
  conn (apn (world s)) = None ->
  exists s',
    step s (Submit n env) = Some s'
    /\ transition s (Submit n env) s'
    /\ dial_attempts (added s s') = 1%nat
    /\ match connect_error env with
       | Some cerr =>
           deliveries (added s s') = [(chans s, Some cerr)]
           /\ written_frames (added s s') = []
           /\ pc s' = Idle
           /\ conn (apn (world s')) = None
           /\ identifier (apn (world s')) = identifier (apn (world s))
       | None =>
           pc s' = Active (fresh (world s))
           /\ conn (apn (world s')) = Some (fresh (world s))
           /\ In (HandshakeOk (fresh (world s))) (added s s')
       end.
Proof.
  intros Hpc Hc.
  destruct (step_defined s (Submit n env)) as [s' Hs].
  { congruence. }
  { intros _. now left. }
  exists s'. split; [exact Hs|].
  pose proof (step_transition _ _ _ Hs) as Ht. split; [exact Ht|].
  destruct s as [[[c ident] f tr] ph ch]. cbn [pc world apn conn] in Hpc, Hc.
  subst c ph. unfold connect_error.
  change (mkLoop (mkWorld (mkApn None ident) f tr) Idle ch)
    with (st None ident f tr Idle ch) in *.
  inversion Ht; subst;
    match goal with
    | H : close_value None _ = Some _ |- _ => discriminate H
    | _ => idtac
    end;
    repeat match goal with
           | H : dial_result _ = _ |- _ => rewrite H; clear H
           | H : handshake_result _ = _ |- _ => rewrite H; clear H
           end;
    rewrite added_st; cbn; auto 10.
Qed.

(** C5.  A request received while idle whose dial or handshake fails is
    answered with the connect error, after exactly one connect attempt;
    nothing is written, the loop is idle again with no connection
    recorded, and the next request makes one connect attempt of its
    own, whose outcome depends on that attempt alone: it fails with its
    own error, or it establishes the connection the client then holds. *)
Theorem connect_failure_reported_without_retry
  (s : LoopState) (n : Notification) (env : Env) (cerr : error) :
  reachable s ->
  pc s = Idle ->
  connect_error env = Some cerr ->
  exists s',
    step s (Submit n env) = Some s'
    /\ deliveries (added s s') = [(chans s, Some cerr)]
    /\ dial_attempts (added s s') = 1%nat
    /\ written_frames (added s s') = []
    /\ pc s' = Idle
    /\ conn (apn (world s')) = None
    /\ identifier (apn (world s')) = identifier (apn (world s))
    /\ forall n2 env2,
       exists s'',
         step s' (Submit n2 env2) = Some s''
         /\ dial_attempts (added s' s'') = 1%nat
         /\ (forall cerr2, connect_error env2 = Some cerr2 ->
             deliveries (added s' s'') = [(chans s', Some cerr2)]
             /\ pc s'' = Idle)
         /\ (connect_error env2 = None ->
             exists q, pc s'' = Active q
                       /\ conn (apn (world s'')) = Some q
                       /\ live (trace (world s'')) = [q]).
Proof.
  intros Hr Hpc He.
  destruct (idle_submit s n env Hpc (idle_no_connection s Hr Hpc))
    as (s' & Hs & _ & Hd & Hcase).
  rewrite He in Hcase. destruct Hcase as (Hdel & Hw & Hpc' & Hc' & Hid).
  exists s'. repeat (split; [assumption|]).
  intros n2 env2.
  destruct (idle_submit s' n2 env2 Hpc' Hc') as (s'' & Hs' & _ & Hd' & Hcase').
  exists s''. repeat (split; [assumption|]). split.
  - intros cerr2 He2. rewrite He2 in Hcase'. tauto.
  - intros He2. rewrite He2 in Hcase'. destruct Hcase' as (Hp & Hc2 & _).
    exists (fresh (world s')). repeat (split; [assumption|]).
    assert (Hr'' : reachable s'').
    { eapply reachable_step; [|exact Hs']. eapply reachable_step; eassumption. }
    destruct (connection_invariant_reachable s'' Hr'') as [Hl _].
    rewrite Hl, Hc2. reflexivity.
Qed.

(** *** A request received while active *)

Lemma active_submit_written (s : LoopState) (q c : nat) (n : Notification) (env : Env) :
  pc s = Active q ->
  conn (apn (world s)) = Some c ->
  accepted n ->
  exists s',
    step s (Submit n env) = Some s'
    /\ added s s' = [ConnWrite c (frame_of env n (identifier (apn (world s))))
                       (write_result env);
                     Deliver (chans s) (write_outcome (write_result env))]
    /\ pc s' = Active q
    /\ conn (apn (world s')) = Some c
    /\ identifier (apn (world s')) = uint32 (identifier (apn (world s)) + 1).
Proof.
  intros Hpc Hc Ha.
  destruct (step_defined s (Submit n env)) as [s' Hs].
  { congruence. }
  { congruence. }
  exists s'. split; [exact Hs|].
  pose proof (step_transition _ _ _ Hs) as Ht.
  apply validation_error_None in Ha.
  destruct s as [[[c0 ident] f tr] ph ch]. cbn [pc world apn conn] in Hpc, Hc.
  subst c0 ph.
  change (mkLoop (mkWorld (mkApn (Some c) ident) f tr) (Active q) ch)
    with (st (Some c) ident f tr (Active q) ch) in *.
  inversion Ht; subst; try congruence;
    try match goal with
        | H : wakes_select _ _ |- _ => destruct H; discriminate
        end.
  rewrite added_st. cbn. auto.
Qed.

Lemma leaves_active_on_signal_only (s s' : LoopState) (e : event) (q : nat) :
  step s e = Some s' ->
  pc s = Active q ->
  pc s' = Idle ->
  exists env, e = QuitSignal env \/ e = IdleTimeout env.
Proof.
  intros Hs Hpc Hpc'. apply step_transition in Hs.
  destruct Hs; cbn [st pc] in *; try discriminate.
  - eauto.
  - congruence.
Qed.

(** C4, as the code has it.  When the socket write fails for a send
    served while the connection is live, the caller gets the write error,
    and the loop stays where it is: the connection is neither closed nor
    forgotten, the next send is written to the same connection, and the
    loop goes back to idle only on the connection-loss signal or the
    idle timeout. *)
Theorem write_failure_reported_connection_kept
  (s : LoopState) (q c : nat) (n : Notification) (env : Env) (e : error) :
  reachable s ->
  pc s = Active q ->
  conn (apn (world s)) = Some c ->
  accepted n ->
  write_result env = Some e ->
  exists s',
    step s (Submit n env) = Some s'
    /\ added s s'
       = [ConnWrite c (frame_of env n (identifier (apn (world s)))) (Some e);
          Deliver (chans s) (Some (Errorf "write socket error: %s" e))]
    /\ pc s' = Active q
    /\ conn (apn (world s')) = Some c
    /\ live (trace (world s')) = [c]
    /\ (forall n2 env2, accepted n2 ->
        exists s'',
          step s' (Submit n2 env2) = Some s''
          /\ added s' s''
             = [ConnWrite c (frame_of env2 n2 (identifier (apn (world s'))))
                  (write_result env2);
                Deliver (chans s') (write_outcome (write_result env2))])
    /\ (forall e2 s2, step s' e2 = Some s2 -> pc s2 = Idle ->
        exists env2, e2 = QuitSignal env2 \/ e2 = IdleTimeout env2).
Proof.
  intros Hr Hpc Hc Ha Hw.
  destruct (active_submit_written s q c n env Hpc Hc Ha)
    as (s' & Hs & Hadd & Hpc' & Hc' & _).
  rewrite Hw in Hadd. cbn [write_outcome] in Hadd.
  exists s'. repeat (split; [assumption|]). split; [|split].
  - destruct (connection_invariant_reachable s') as [Hl _].
    { eapply reachable_step; eassumption. }
    rewrite Hl, Hc'. reflexivity.
  - intros n2 env2 Ha2.
    destruct (active_submit_written s' q c n2 env2 Hpc' Hc' Ha2)
      as (s'' & Hs' & Hadd' & _).
    exists s''. split; assumption.
  - intros e2 s2 Hs2 Hidle.
    eapply leaves_active_on_signal_only; eassumption.
Qed.

(** *** Identifiers *)

Lemma written_frames_closing (c : option nat) (cr : option error) :
  written_frames (closing c cr) = [].
Proof. now destruct c. Qed.

Lemma written_frames_leaving (c : option nat) (cr : option error) :
  written_frames (leaving c cr) = [].
Proof. unfold leaving. destruct c as [c|]; [destruct cr|]; reflexivity. Qed.

Lemma deliveries_closing (c : option nat) (cr : option error) :
  deliveries (closing c cr) = [].
Proof. now destruct c. Qed.

Lemma deliveries_leaving (c : option nat) (cr : option error) :
  deliveries (leaving c cr) = [].
Proof. unfold leaving. destruct c as [c|]; [destruct cr|]; reflexivity. Qed.

Lemma frame_identifier_frame_of (env : Env) (n : Notification) (ident : Z) :
  frame_identifier (frame_of env n ident) = uint32 ident.
Proof.
  unfold frame_of. rewrite pushPackage_layout. apply frame_identifier_encode.
Qed.

Lemma uint32_succ (k : nat) :
  uint32 (uint32 (Z.of_nat k) + 1) = uint32 (Z.of_nat (S k)).
Proof.
  unfold uint32. rewrite Nat2Z.inj_succ, Z.add_mod_idemp_l by lia.
  reflexivity.
Qed.

Lemma uint32_idem (z : Z) : uint32 (uint32 z) = uint32 z.
Proof. unfold uint32. apply Z.mod_mod. lia. Qed.

(** What a transition adds to the frames written: nothing, or the frame
    built from the counter, which then advances. *)
Lemma transition_frames (s s' : LoopState) (e : event) :
  transition s e s' ->
  (written_frames (trace (world s')) = written_frames (trace (world s))
   /\ (pc s' <> Crashed ->
       identifier (apn (world s')) = identifier (apn (world s))))
  \/ (exists env n,
        written_frames (trace (world s'))
        = written_frames (trace (world s))
            ++ [frame_of env n (identifier (apn (world s)))]
        /\ identifier (apn (world s'))
           = uint32 (identifier (apn (world s)) + 1)).
Proof.
  intros Ht.
  destruct Ht; unfold st; cbn [world trace apn identifier pc];
    rewrite ?written_frames_app, ?written_frames_closing,
      ?written_frames_leaving; cbn [written_frames flat_map app];
    rewrite ?app_nil_r;
    try (left; split; [reflexivity | congruence]);
    right; eauto.
Qed.

Lemma transition_not_crashed_before (s s' : LoopState) (e : event) :
  transition s e s' -> pc s <> Crashed.
Proof. intros Ht. destruct Ht; cbn [st pc]; congruence. Qed.

Lemma identifier_invariant_step (s s' : LoopState) (e : event) :
  identifier_invariant s -> transition s e s' -> identifier_invariant s'.
Proof.
  unfold identifier_invariant, frame_ids. intros [Hids Hid] Ht.
  pose proof (transition_not_crashed_before _ _ _ Ht) as Hnc.
  specialize (Hid Hnc).
  destruct (transition_frames _ _ _ Ht) as [[Hw Hi]|(env & n & Hw & Hi)].
  - rewrite Hw. split; [exact Hids|].
    intros Hc. rewrite (Hi Hc). exact Hid.
  - rewrite Hw, map_app, length_app, Hids. cbn [map List.length].
    rewrite Nat.add_1_r, seq_S, map_app, frame_identifier_frame_of, Hid.
    cbn [map Nat.add]. rewrite uint32_idem. split; [reflexivity|].
    intros _. rewrite Hi, Hid. apply uint32_succ.
Qed.

Lemma identifier_invariant_reachable (s : LoopState) :
  reachable s -> identifier_invariant s.
Proof.
  apply reachable_ind.
  - split; [reflexivity | intros _; reflexivity].
  - intros s0 e s' _. apply identifier_invariant_step.
Qed.

Lemma identifiers_sorted (f : nat -> Z) (a k : nat) :
  (forall i, (a <= i < a + k)%nat -> f i = Z.of_nat i) ->
  StronglySorted Z.lt (map f (seq a k)).
Proof.
  revert a. induction k as [|k IH]; intros a Hf; cbn [seq map].
  - constructor.
  - constructor.
    + apply IH. intros i Hi. apply Hf. lia.
    + apply Forall_forall. intros z Hz.
      apply in_map_iff in Hz. destruct Hz as (i & <- & Hi).
      apply in_seq in Hi. rewrite (Hf a), (Hf i) by lia. lia.
Qed.

(** C3, as the code has it.  Over any run of the loop, with whatever
    connects, disconnects and failures in between, the frame written in
    position [k] (from zero) carries the identifier [k] modulo 2^32: the
    counter is never reset by a reconnect, and the identifiers are
    strictly increasing as long as no more than 2^32 frames have been
    written. *)
Theorem identifiers_count_frames (evs : list event) (s : LoopState) :
  run init evs = Some s ->
  let ids := frame_ids (trace (world s)) in
  ids = map (fun k => uint32 (Z.of_nat k)) (seq 0 (List.length ids))
  /\ (Z.of_nat (List.length ids) <= 2 ^ 32 ->
      StronglySorted Z.lt ids).
Proof.
  intros Hrun ids.
  destruct (identifier_invariant_reachable s) as [Hids _].
  { now exists evs. }
  assert (Hlen : List.length ids
                 = List.length (written_frames (trace (world s)))).
  { unfold ids, frame_ids. apply length_map. }
  rewrite Hlen. fold ids in Hids. split; [exact Hids|].
  intros Hk. rewrite Hids. apply identifiers_sorted.
  intros i Hi. unfold uint32. apply Z.mod_small. lia.
Qed.

(** *** Deliveries *)




(** Induction over the runs, keeping the events. *)
Lemma run_ind (P : list event -> LoopState -> Prop) :
  P [] init ->
  (forall evs s e s',
     run init evs = Some s -> P evs s -> transition s e s' ->
     P (evs ++ [e]) s') ->
  forall evs s, run init evs = Some s -> P evs s.
Proof.
  intros Hinit Hstep evs.
  induction evs as [|e evs IH] using rev_ind; intros s Hrun.
  - cbn in Hrun. injection Hrun as <-. exact Hinit.
  - apply run_snoc in Hrun. destruct Hrun as (s1 & Hrun & Hs).
    apply (Hstep evs s1 e s); auto. now apply step_transition.
Qed.

Lemma submits_snoc (evs : list event) (e : event) :
  submits (evs ++ [e])
  = (submits evs + if is_submit e then 1 else 0)%nat.
Proof.
  unfold submits. rewrite filter_app, length_app. cbn [filter].
  now destruct (is_submit e).
Qed.

Lemma existsb_snoc_false {A} (f : A -> bool) (l : list A) (a : A) :
  existsb f (l ++ [a]) = false -> existsb f l = false /\ f a = false.
Proof.
  rewrite existsb_app. intros H. apply orb_false_iff in H.
  destruct H as [H1 H2]. cbn [existsb] in H2. rewrite orb_false_r in H2. auto.
Qed.

(** Without calls to the exported [Close] and without nil notifications,
    the loop never crashes, the connection of the active phase stays
    recorded, and the channels made so far are as many as the
    requests. *)
Lemma run_without_close (evs : list event) (s : LoopState) :
  run init evs = Some s ->
  existsb is_close_call evs = false ->
  existsb is_nil_submit evs = false ->
  pc s <> Crashed
  /\ (forall q, pc s = Active q -> conn (apn (world s)) <> None)
  /\ chans s = submits evs.
Proof.
  revert evs s. apply (run_ind (fun evs s =>
    existsb is_close_call evs = false ->
    existsb is_nil_submit evs = false ->
    pc s <> Crashed
    /\ (forall q, pc s = Active q -> conn (apn (world s)) <> None)
    /\ chans s = submits evs)).
  - intros _ _. repeat split; discriminate.
  - intros evs s e s' _ IH Ht Hnc Hnn.
    apply existsb_snoc_false in Hnc. destruct Hnc as [Hnc He].
    apply existsb_snoc_false in Hnn. destruct Hnn as [Hnn Hen].
    destruct (IH Hnc Hnn) as (Hpc & Hact & Hch). clear IH.
    rewrite submits_snoc.
    destruct Ht;
      cbn [st pc world apn conn chans is_submit is_close_call is_nil_submit] in *;
      try discriminate;
      try (repeat split; [congruence | congruence | lia]).
    + repeat split; [congruence | exact Hact | lia].
    + exfalso. now apply (Hact q).
    + match goal with H : wakes_select _ _ |- _ => destruct H; subst end;
        cbn [is_submit]; repeat split; try congruence; lia.
Qed.



End LoopFacts.

(* ================================================================== *)
(** * readError *)

Section ReaderFacts.

Context {ext : Externals}.

Lemma firstn_le_length {A} (n : nat) (l : list A) :
  (List.length (firstn n l) <= n)%nat.
Proof. rewrite length_firstn. lia. Qed.

(** One [conn.Read] into a six-byte buffer: the slice [p[:n]] is what
    arrived, cut at six bytes, and the buffer keeps its length. *)
Lemma conn_Read_six (p : list byte) (r : read_outcome) :
  List.length p = 6%nat ->
  let d := firstn 6 (rd_data r) in
  exists p',
    conn_Read p r = (p', List.length d, rd_err r)
    /\ firstn (List.length d) p' = d
    /\ List.length p' = 6%nat.
Proof.
  intros Hp d. unfold conn_Read. rewrite Hp. fold d.
  exists (d ++ skipn (List.length d) p). split; [reflexivity|]. split.
  - rewrite firstn_app, Nat.sub_diag, firstn_O, app_nil_r. apply firstn_all.
  - rewrite length_app, length_skipn, Hp.
    pose proof (firstn_le_length 6 (rd_data r)). fold d in H. lia.
Qed.

(** One iteration of [readError], from [conn.Read] to the next blocking
    point after the event was taken: the event carries the bytes that
    arrived, cut at six, and the error of the read; after a read without
    error the reader is back in [conn.Read], after a failed one it is
    blocked in [quit <- 1]. *)
Lemma reader_iteration (rd : ReaderState) (r : read_outcome) :
  rpc rd = InRead ->
  List.length (buffer rd) = 6%nat ->
  exists rd',
    reader_run rd [ReadReturns r; ErrorReceived] = Some rd'
    /\ reader_published rd [ReadReturns r; ErrorReceived]
       = [NewNotificationError (firstn 6 (rd_data r)) (rd_err r)]
    /\ List.length (buffer rd') = 6%nat
    /\ rpc rd' = if is_some (rd_err r) then InSendQuit else InRead.
Proof.
  destruct rd as [p pc0]. cbn [rpc buffer]. intros -> Hlen.
  destruct (conn_Read_six p r Hlen) as (p' & Hread & Hslice & Hp').
  cbn [reader_run reader_published reader_step rpc buffer].
  rewrite Hread, Hslice. cbn [reader_step rpc buffer].
  eexists. split; [reflexivity|].
  split; [reflexivity|]. split; [exact Hp'|]. reflexivity.
Qed.

(** Blocked in [quit <- 1], the reader can only be released by a receive
    from [quit]. *)
Lemma reader_waits_for_quit (rd : ReaderState) (evs : list reader_event)
  (rd' : ReaderState) :
  rpc rd = InSendQuit ->
  existsb is_quit_received evs = false ->
  reader_run rd evs = Some rd' ->
  evs = [] /\ rd' = rd.
Proof.
  intros Hpc Hnq Hrun. destruct evs as [|ev evs].
  - cbn in Hrun. injection Hrun as <-. auto.
  - cbn [existsb] in Hnq. apply orb_false_iff in Hnq. destruct Hnq as [Hev _].
    cbn [reader_run] in Hrun. unfold reader_step in Hrun. rewrite Hpc in Hrun.
    destruct ev; try discriminate.
Qed.

(** [readError] returns only through a receive from [quit]. *)
Lemma reader_returns_only_after_quit
  (rd : ReaderState) (evs : list reader_event) (rd' : ReaderState) :
  rpc rd <> ReaderReturned ->
  existsb is_quit_received evs = false ->
  reader_run rd evs = Some rd' ->
  rpc rd' <> ReaderReturned.
Proof.
  revert rd. induction evs as [|ev evs IH]; intros rd Hpc Hnq Hrun.
  - cbn in Hrun. injection Hrun as <-. exact Hpc.
  - cbn [existsb] in Hnq. apply orb_false_iff in Hnq. destruct Hnq as [Hev Hnq].
    cbn [reader_run] in Hrun.
    destruct (reader_step rd ev) as [rd1|] eqn:Hs; [|discriminate].
    apply (IH rd1); [|exact Hnq|exact Hrun].
    unfold reader_step in Hs.
    destruct (rpc rd) as [|e failed| |]; destruct ev; try discriminate.
    + destruct (conn_Read (buffer rd) r) as [[p n] err].
      injection Hs as <-. discriminate.
    + injection Hs as <-. cbn [rpc]. destruct failed; discriminate.
Qed.

End ReaderFacts.

(* ================================================================== *)
(** * The theorems on sample inputs *)

Lemma accepted_demo : accepted demo.
Proof. repeat split; cbn; lia. Qed.

Lemma send_writes_push_frame_witness :
  accepted demo
  /\ conn (apn connected_world) = Some 0%nat
  /\ exists data r w',
       send (ok_env 0) demo connected_world = Done r w'
       /\ trace w' = trace connected_world
                       ++ [ConnWrite 0 data (write_result (ok_env 0))]
       /\ data = [x01] ++ be_bytes 4 7
                 ++ be_bytes 4 (expiry_of (ok_env 0) demo)
                 ++ be_bytes 2 2 ++ fst (hex_decode "ab12")
                 ++ be_bytes 2 10 ++ repeat x61 10
       /\ List.length data = 25%nat.
Proof.
  split; [exact accepted_demo|]. split; [reflexivity|].
  exact (send_writes_push_frame (ok_env 0) demo connected_world 0
           accepted_demo eq_refl).
Defined.

Lemma identifiers_count_frames_witness :
  run init failing_write_run = Some (state_after failing_write_run)
  /\ frame_ids (trace (world (state_after failing_write_run))) = [0; 1; 2]
  /\ StronglySorted Z.lt
       (frame_ids (trace (world (state_after failing_write_run)))).
Proof.
  split; [vm_compute; reflexivity|]. split; [vm_compute; reflexivity|].
  refine (proj2 (identifiers_count_frames failing_write_run
                   (state_after failing_write_run) _) _).
  - vm_compute. reflexivity.
  - vm_compute. discriminate.
Defined.

Lemma write_failure_reported_connection_kept_witness :
  exists s',
    step (state_after [Submit demo (ok_env 0)]) (Submit demo (write_fails 1))
    = Some s'
    /\ deliveries (added (state_after [Submit demo (ok_env 0)]) s')
       = [(1%nat, Some (Errorf "write socket error: %s" broken_pipe))]
    /\ pc s' = Active 0
    /\ conn (apn (world s')) = Some 0%nat.
Proof.
  destruct (write_failure_reported_connection_kept
              (state_after [Submit demo (ok_env 0)]) 0 0 demo (write_fails 1)
              broken_pipe)
    as (s' & Hs & Hadd & Hpc & Hc & _).
  - exists [Submit demo (ok_env 0)]. reflexivity.
  - reflexivity.
  - reflexivity.
  - exact accepted_demo.
  - reflexivity.
  - exists s'. rewrite Hadd. repeat split; assumption.
Defined.

Lemma connect_failure_reported_without_retry_witness :
  exists s',
    step init (Submit demo (handshake_fails 0)) = Some s'
    /\ deliveries (added init s')
       = [(0%nat, Some (Errorf "handshake server error: %s" handshake_failure))]
    /\ dial_attempts (added init s') = 1%nat
    /\ pc s' = Idle
    /\ conn (apn (world s')) = None.
Proof.
  destruct (connect_failure_reported_without_retry init demo (handshake_fails 0)
              (Errorf "handshake server error: %s" handshake_failure))
    as (s' & Hs & Hdel & Hd & _ & Hpc & Hc & _).
  - exists []. reflexivity.
  - reflexivity.
  - reflexivity.
  - exists s'. repeat split; assumption.
Defined.


Lemma oversized_payload_rejected_witness :
  send (ok_env 0) oversized connected_world
  = Done (Some (ErrorfBytes "payload json too large: %s" (repeat x61 257)))
      connected_world
  /\ exists w',
       send (ok_env 0) full_size connected_world = Done None w'
       /\ trace w' = [ConnWrite 0 (frame_of (ok_env 0) full_size 7) None].
Proof.
  split.
  - refine (proj2 (proj1 (oversized_payload_rejected (ok_env 0) oversized
                            connected_world) _) _ _).
    + cbn. lia.
    + reflexivity.
    + reflexivity.
  - refine (proj2 (oversized_payload_rejected (ok_env 0) full_size
                     connected_world) _ _ _ 0%nat _); reflexivity.
Defined.

Lemma identifier_consumed_by_attempt_witness :
  exists w',
    send (write_fails 0) demo connected_world
    = Done (Some (Errorf "write socket error: %s" broken_pipe)) w'
    /\ identifier (apn w') = 8.
Proof.
  destruct (identifier_consumed_by_attempt (write_fails 0) demo connected_world
              0 accepted_demo eq_refl)
    as (w' & Hs & _ & Hid & _).
  exists w'. split; [exact Hs|]. apply Hid. cbn. lia.
Defined.

Lemma rejected_send_changes_nothing_witness :
  exists err,
    send (ok_env 0) bad_token connected_world = Done (Some err) connected_world.
Proof.
  destruct (rejected_send_changes_nothing (ok_env 0) bad_token connected_world)
    as (err & w' & Hs & Hw & _).
  - left. cbn. discriminate.
  - exists err. rewrite Hs, Hw. reflexivity.
Defined.

(* ================================================================== *)
(** * Where the code departs from the specification *)

Section LongRuns.

Context {ext : Externals}.

(** A good request is always served, leaves the loop active with its
    connection recorded, and adds one frame. *)
Lemma good_submit_step (s : LoopState) (e : event) :
  pc s <> Crashed ->
  (pc s = Idle -> conn (apn (world s)) = None) ->
  (forall q, pc s = Active q -> conn (apn (world s)) <> None) ->
  good_submit e ->
  exists s',
    step s e = Some s'
    /\ (exists q, pc s' = Active q)
    /\ conn (apn (world s')) <> None
    /\ List.length (written_frames (trace (world s')))
       = S (List.length (written_frames (trace (world s)))).
Proof.
  intros Hnc Hidle Hact Hgood.
  destruct e as [n env| | | |]; try contradiction.
  destruct Hgood as (Ha & Hd & Hh). apply validation_error_None in Ha.
  destruct (step_defined s (Submit n env) Hnc) as [s' Hs].
  { intros _. now left. }
  exists s'. split; [exact Hs|].
  apply step_transition in Hs.
  destruct s as [[[c ident] f tr] ph ch].
  cbn [pc world apn conn] in Hnc, Hidle, Hact.
  change (mkLoop (mkWorld (mkApn c ident) f tr) ph ch)
    with (st c ident f tr ph ch) in Hs.
  inversion Hs; subst; try congruence;
    try match goal with
        | H : wakes_select _ _ |- _ => destruct H; discriminate
        end;
    try (rewrite (Hidle eq_refl) in *; discriminate);
    try (exfalso; now apply (Hact q)).
  - rewrite (Hidle eq_refl). unfold st. cbn [pc world apn conn trace closing app].
    rewrite written_frames_app. cbn. rewrite length_app. cbn.
    repeat split; eauto; try discriminate. lia.
  - unfold st. cbn [pc world apn conn trace].
    rewrite written_frames_app. cbn. rewrite length_app. cbn.
    repeat split; eauto; try discriminate. lia.
Qed.

Lemma run_good_submits (evs : list event) :
  Forall good_submit evs ->
  exists s,
    run init evs = Some s
    /\ pc s <> Crashed
    /\ (pc s = Idle -> conn (apn (world s)) = None)
    /\ (forall q, pc s = Active q -> conn (apn (world s)) <> None)
    /\ List.length (written_frames (trace (world s))) = List.length evs.
Proof.
  induction evs as [|e evs IH] using rev_ind; intros Hgood.
  - exists init. repeat split; try discriminate.
  - apply Forall_app in Hgood. destruct Hgood as [Hevs He].
    apply Forall_inv in He.
    destruct (IH Hevs) as (s & Hrun & Hnc & Hidle & Hact & Hlen).
    destruct (good_submit_step s e Hnc Hidle Hact He)
      as (s' & Hs & (q & Hq) & Hc & Hlen').
    exists s'. rewrite run_app, Hrun. cbn [run]. rewrite Hs.
    repeat split; try congruence.
    rewrite Hlen', Hlen, length_app. cbn. lia.
Qed.

(** Past 2^32 frames the identifiers are not increasing: frame number
    2^32 carries the identifier 0 again. *)
Lemma wrapped_identifiers_not_sorted (k : nat) :
  2 ^ 32 < Z.of_nat k ->
  ~ StronglySorted Z.lt (map (fun i => uint32 (Z.of_nat i)) (seq 0 k)).
Proof.
  intros Hk Hsorted.
  destruct k as [|k]; [cbn in Hk; lia|].
  cbn [seq map] in Hsorted. apply StronglySorted_inv in Hsorted.
  destruct Hsorted as [_ Hall]. rewrite Forall_forall in Hall.
  assert (Hi : exists i, Z.of_nat i = 2 ^ 32).
  { exists (Z.to_nat (2 ^ 32)). apply Z2Nat.id. lia. }
  destruct Hi as [i Hi].
  specialize (Hall (uint32 (Z.of_nat i))).
  rewrite Hi in Hall. change (uint32 (2 ^ 32)) with 0 in Hall.
  change (uint32 (Z.of_nat 0)) with 0 in Hall.
  assert (In 0 (map (fun i => uint32 (Z.of_nat i)) (seq 1 k))).
  { apply in_map_iff. exists i. rewrite Hi. split; [reflexivity|].
    apply in_seq. lia. }
  specialize (Hall H). lia.
Qed.

Lemma identifiers_after_good_submits (evs : list event) :
  Forall good_submit evs ->
  exists s,
    run init evs = Some s
    /\ frame_ids (trace (world s))
       = map (fun i => uint32 (Z.of_nat i)) (seq 0 (List.length evs)).
Proof.
  intros Hgood.
  destruct (run_good_submits evs Hgood) as (s & Hrun & _ & _ & _ & Hlen).
  exists s. split; [exact Hrun|].
  destruct (identifier_invariant_reachable s (ex_intro _ evs Hrun)) as [Hids _].
  rewrite Hids, Hlen. reflexivity.
Qed.

End LongRuns.

(** C3, as stated, fails: a client that has served 2^32 + 1 requests has
    written frames whose identifiers are not strictly increasing (the
    32-bit counter wrapped to zero). *)
Lemma identifiers_wrap_around :
  exists s,
    run init (repeat (Submit demo (ok_env 0)) (Z.to_nat 4294967297)) = Some s
    /\ ~ StronglySorted Z.lt (frame_ids (trace (world s))).
Proof.
  destruct (identifiers_after_good_submits
              (repeat (Submit demo (ok_env 0)) (Z.to_nat 4294967297)))
    as (s & Hrun & Hids).
  - apply Forall_forall. intros e He. apply repeat_spec in He. subst e.
    split; [exact accepted_demo|]. split; reflexivity.
  - exists s. split; [exact Hrun|]. rewrite Hids, repeat_length.
    apply wrapped_identifiers_not_sorted.
    rewrite Z2Nat.id by lia. change (2 ^ 32) with 4294967296. lia.
Qed.

(** The same wrap-around on one step: served when the counter is
    2^32 - 1, a request leaves the counter at zero. *)
Example counter_wraps_to_zero :
  identifier
    (apn (world_of (send (ok_env 0) demo
                      (mkWorld (mkApn (Some 0%nat) 4294967295) 1 []))))
  = 0.
Proof. vm_compute. reflexivity. Qed.

(** C4, as stated, fails: after a write error served in the active phase
    the caller has the write error, but the loop is still active on the
    same connection, which has not been closed. *)
Lemma write_failure_does_not_end_active :
  exists s s',
    run init [Submit demo (ok_env 0)] = Some s
    /\ pc s = Active 0
    /\ conn (apn (world s)) = Some 0%nat
    /\ step s (Submit demo (write_fails 1)) = Some s'
    /\ deliveries (added s s')
       = [(1%nat, Some (Errorf "write socket error: %s" broken_pipe))]
    /\ pc s' <> Idle
    /\ conn (apn (world s')) <> None
    /\ closes (added s s') = 0%nat
    /\ live (trace (world s')) = [0%nat].
Proof.
  do 2 eexists.
  split; [vm_compute; reflexivity|].
  split; [reflexivity|]. split; [reflexivity|].
  split; [vm_compute; reflexivity|].
  split; [vm_compute; reflexivity|].
  repeat split; try discriminate; vm_compute; reflexivity.
Qed.

(** C1, at its failing input.  A first request whose TLS handshake fails
    leaves the socket [net.Dial] opened open: [connect] returns at line
    102 without closing it, and nothing records it.  The next request
    connects: from then on the client holds two open sockets at the same
    time, the leaked one and the connection it records, and neither has
    been closed. *)
Example failed_handshake_leaves_socket :
  exists s0 s,
    run init [Submit demo (handshake_fails 0)] = Some s0
    /\ pc s0 = Idle
    /\ conn (apn (world s0)) = None
    /\ open_sockets (trace (world s0)) = [0%nat]
    /\ step s0 (Submit demo (ok_env 1)) = Some s
    /\ live (trace (world s)) = [1%nat]
    /\ conn (apn (world s)) = Some 1%nat
    /\ open_sockets (trace (world s)) = [1%nat; 0%nat]
    /\ closed (trace (world s)) = [].
Proof.
  do 2 eexists. split; [vm_compute; reflexivity|].
  split; [reflexivity|]. split; [reflexivity|].
  split; [vm_compute; reflexivity|].
  split; [vm_compute; reflexivity|].
  repeat split; vm_compute; reflexivity.
Qed.


(** A request served after the exported [Close] was called in the active
    phase dereferences the nil connection. *)
Example send_after_close_call_crashes :
  exists s,
    run init [Submit demo (ok_env 0); CloseCall (ok_env 1);
              Submit demo (ok_env 2)] = Some s
    /\ pc s = Crashed
    /\ map fst (deliveries (trace (world s))) = [0%nat].
Proof.
  eexists. split; [vm_compute; reflexivity|].
  split; vm_compute; reflexivity.
Qed.

(* ================================================================== *)
(** * The frame, read back *)

Lemma segment_at {A} (pre seg post : list A) (i k : nat) :
  List.length pre = i ->
  List.length seg = k ->
  firstn k (skipn i (pre ++ seg ++ post)) = seg.
Proof.
  intros <- <-.
  rewrite skipn_app, skipn_all, Nat.sub_diag. cbn [skipn app].
  rewrite firstn_app, Nat.sub_diag, firstn_all. cbn [firstn].
  apply app_nil_r.
Qed.

Lemma tail_at {A} (pre post : list A) (i : nat) :
  List.length pre = i -> skipn i (pre ++ post) = post.
Proof.
  intros <-. rewrite skipn_app, skipn_all, Nat.sub_diag. reflexivity.
Qed.

Lemma app_inj_length {A} (a a' b b' : list A) :
  List.length a = List.length a' ->
  a ++ b = a' ++ b' ->
  a = a' /\ b = b'.
Proof.
  revert a'. induction a as [|x a IH]; intros [|x' a'] Hlen Heq;
    try discriminate.
  - split; [reflexivity | exact Heq].
  - cbn in Hlen, Heq. injection Heq as -> Heq.
    destruct (IH a' (eq_add_S _ _ Hlen) Heq) as [-> ->]. split; reflexivity.
Qed.

Lemma be_value_be_bytes_2 (v : Z) : be_value (be_bytes 2 v) = uint16 v.
Proof. apply (be_value_be_bytes 2). Qed.

Lemma be_value_be_bytes_u32 (v : Z) : be_value (be_bytes 4 v) = uint32 v.
Proof. apply (be_value_be_bytes 4). Qed.

(** X1.  Every field of the frame [send] builds can be read back at its
    offset: the command byte 1 at 0, the identifier at 1 and the expiry
    at 5 (each modulo 2^32), the token length at 9 (modulo 2^16: a token
    of more than 65535 bytes is announced with a wrapped length), the
    token at 11, then the payload length (modulo 2^16) and the payload,
    which ends the frame. *)
Theorem pushPackage_fields (ident expiry : Z) (tokenbin payloadbyte : list byte) :
  let frame := pushPackage ident expiry tokenbin payloadbyte in
  let n := List.length tokenbin in
  firstn 1 frame = [x01]
  /\ be_value (firstn 4 (skipn 1 frame)) = uint32 ident
  /\ be_value (firstn 4 (skipn 5 frame)) = uint32 expiry
  /\ be_value (firstn 2 (skipn 9 frame)) = uint16 (Z.of_nat n)
  /\ firstn n (skipn 11 frame) = tokenbin
  /\ be_value (firstn 2 (skipn (11 + n) frame))
     = uint16 (Z.of_nat (List.length payloadbyte))
  /\ skipn (13 + n) frame = payloadbyte.
Proof.
  intros frame n. subst frame. rewrite pushPackage_layout.
  unfold encodePushFrame.
  set (A := be_bytes 4 ident). set (B := be_bytes 4 expiry).
  set (C := be_bytes 2 (Z.of_nat (List.length tokenbin))).
  set (D := be_bytes 2 (Z.of_nat (List.length payloadbyte))).
  assert (HA : List.length A = 4%nat) by apply be_bytes_length.
  assert (HB : List.length B = 4%nat) by apply be_bytes_length.
  assert (HC : List.length C = 2%nat) by apply be_bytes_length.
  assert (HD : List.length D = 2%nat) by apply be_bytes_length.
  rewrite be_bytes_1_1. repeat split.
  - rewrite (segment_at [x01] A _ 1 4 eq_refl HA).
    apply be_value_be_bytes_u32.
  - rewrite (app_assoc [x01] A).
    rewrite (segment_at ([x01] ++ A) B _ 5 4); [apply be_value_be_bytes_u32 | | exact HB].
    rewrite length_app, HA. reflexivity.
  - rewrite (app_assoc [x01] A), (app_assoc ([x01] ++ A) B).
    rewrite (segment_at (([x01] ++ A) ++ B) C _ 9 2); [apply be_value_be_bytes_2 | | exact HC].
    rewrite !length_app, HA, HB. reflexivity.
  - rewrite (app_assoc [x01] A), (app_assoc ([x01] ++ A) B),
      (app_assoc (([x01] ++ A) ++ B) C).
    apply segment_at; [|reflexivity].
    rewrite !length_app, HA, HB, HC. reflexivity.
  - rewrite (app_assoc [x01] A), (app_assoc ([x01] ++ A) B),
      (app_assoc (([x01] ++ A) ++ B) C),
      (app_assoc ((([x01] ++ A) ++ B) ++ C) tokenbin).
    rewrite (segment_at (((([x01] ++ A) ++ B) ++ C) ++ tokenbin) D _ (11 + n) 2);
      [apply be_value_be_bytes_2 | | exact HD].
    rewrite !length_app, HA, HB, HC. reflexivity.
  - rewrite (app_assoc [x01] A), (app_assoc ([x01] ++ A) B),
      (app_assoc (([x01] ++ A) ++ B) C),
      (app_assoc ((([x01] ++ A) ++ B) ++ C) tokenbin),
      (app_assoc (((([x01] ++ A) ++ B) ++ C) ++ tokenbin) D).
    apply tail_at.
    rewrite !length_app, HA, HB, HC, HD. cbn [List.length]. fold n. lia.
Qed.

(** X2.  Frames are unambiguous: two frames built from identifiers in
    the 32-bit range and from tokens and payloads whose lengths fit their
    16-bit fields are equal only if identifier, expiry (as written, that
    is modulo 2^32), token and payload are equal. *)
Theorem pushPackage_injective
  (ident ident' expiry expiry' : Z) (tok tok' pl pl' : list byte) :
  0 <= ident < 2 ^ 32 ->
  0 <= ident' < 2 ^ 32 ->
  Z.of_nat (List.length tok) < 2 ^ 16 ->
  Z.of_nat (List.length tok') < 2 ^ 16 ->
  Z.of_nat (List.length pl) < 2 ^ 16 ->
  Z.of_nat (List.length pl') < 2 ^ 16 ->
  pushPackage ident expiry tok pl = pushPackage ident' expiry' tok' pl' ->
  ident = ident' /\ uint32 expiry = uint32 expiry' /\ tok = tok' /\ pl = pl'.
Proof.
  intros Hi Hi' Ht Ht' Hp Hp' Heq.
  rewrite !pushPackage_layout in Heq. unfold encodePushFrame in Heq.
  apply app_inj_length in Heq; [|now rewrite !be_bytes_length].
  destruct Heq as [_ Heq].
  apply app_inj_length in Heq; [|now rewrite !be_bytes_length].
  destruct Heq as [Hid Heq].
  apply app_inj_length in Heq; [|now rewrite !be_bytes_length].
  destruct Heq as [Hex Heq].
  apply app_inj_length in Heq; [|now rewrite !be_bytes_length].
  destruct Heq as [Htl Heq].
  apply (f_equal be_value) in Hid, Hex, Htl.
  rewrite !be_value_be_bytes_u32 in Hid, Hex.
  rewrite !be_value_be_bytes_2 in Htl.
  unfold uint32 in Hid. rewrite !Z.mod_small in Hid by lia.
  unfold uint16 in Htl. rewrite !Z.mod_small in Htl by lia.
  apply Nat2Z.inj in Htl.
  apply app_inj_length in Heq; [|exact Htl].
  destruct Heq as [Htok Heq].
  apply app_inj_length in Heq; [|now rewrite !be_bytes_length].
  destruct Heq as [_ Hpl]. auto.
Qed.

Lemma pushPackage_injective_witness :
  pushPackage 7 100 [x01; x02] [x61] = pushPackage 7 100 [x01; x02] [x61]
  /\ (7 = 7 /\ uint32 100 = uint32 100
      /\ [x01; x02] = [x01; x02] /\ [x61] = [x61]).
Proof.
  split; [reflexivity|].
  apply (pushPackage_injective 7 7 100 100 [x01; x02] [x01; x02] [x61] [x61]);
    try (cbn; lia); reflexivity.
Defined.

Section ExpiryFacts.

Context {ext : Externals}.

Lemma frame_expiry_field (ident expiry : Z) (tok pl : list byte) :
  be_value (firstn 4 (skipn 5 (pushPackage ident expiry tok pl))) = uint32 expiry.
Proof.
  rewrite pushPackage_layout. unfold encodePushFrame.
  rewrite (app_assoc (be_bytes 1 1) (be_bytes 4 ident)).
  rewrite (segment_at (be_bytes 1 1 ++ be_bytes 4 ident) (be_bytes 4 expiry) _ 5 4).
  - apply be_value_be_bytes_u32.
  - now rewrite length_app, !be_bytes_length.
  - apply be_bytes_length.
Qed.

(** X3.  The expiry [send] writes is the unix time of the send plus the
    notification's lifetime in seconds, modulo 2^32, as long as the
    lifetime in nanoseconds fits a 64-bit duration (a negative lifetime
    gives an expiry in the past). *)
Theorem send_expiry_is_now_plus_lifetime
  (env : Env) (n : Notification) (w : World) (c : nat) :
  accepted n ->
  conn (apn w) = Some c ->
  - 2 ^ 63 <= ExpireAfterSeconds n * Second < 2 ^ 63 ->
  exists data r w',
    send env n w = Done r w'
    /\ trace w' = trace w ++ [ConnWrite c data (write_result env)]
    /\ be_value (firstn 4 (skipn 5 data))
       = uint32 (now env / Second + ExpireAfterSeconds n).
Proof.
  intros Ha Hc Hr. rewrite (send_accepted env n w Ha), Hc.
  do 3 eexists. split; [reflexivity|]. split; [reflexivity|].
  unfold frame_of. rewrite frame_expiry_field. unfold expiry_of.
  rewrite Time_Unix_after by exact Hr. reflexivity.
Qed.

End ExpiryFacts.

Lemma send_expiry_is_now_plus_lifetime_witness :
  exists data r w',
    send (ok_env (1700000000 * Second + 5)) demo connected_world = Done r w'
    /\ trace w' = [ConnWrite 0 data None]
    /\ be_value (firstn 4 (skipn 5 data)) = 1700003600.
Proof.
  destruct (send_expiry_is_now_plus_lifetime
              (ok_env (1700000000 * Second + 5)) demo connected_world 0
              accepted_demo eq_refl)
    as (data & r & w' & Hs & Ht & He).
  - cbn. lia.
  - exists data, r, w'. split; [exact Hs|]. split; [exact Ht|].
    rewrite He. reflexivity.
Defined.

(* ================================================================== *)
(** * Sockets, readers and closes over a run *)

Section BookkeepingFacts.

Context {ext : Externals}.

Ltac split_in :=
  repeat match goal with
         | H : In _ (_ ++ _) |- _ => apply in_app_or in H; destruct H as [H|H]
         | H : In _ (_ :: _) |- _ => destruct H as [H|H]; [subst|]
         | H : In _ [] |- _ => destruct H
         end.

Lemma open_sockets_app (tr acts : list action) :
  open_sockets (tr ++ acts) = fold_left open_step acts (open_sockets tr).
Proof. unfold open_sockets. apply fold_left_app. Qed.

Lemma In_remove_iff (x y : nat) (l : list nat) :
  In x (remove Nat.eq_dec y l) <-> In x l /\ x <> y.
Proof.
  split.
  - apply in_remove.
  - intros [Hin Hne]. now apply in_in_remove.
Qed.

Ltac observe Ht :=
  destruct Ht; unfold st, leaving in *;
  cbn [world trace apn conn fresh pc chans] in *;
  try match goal with
      | c : option nat |- _ => destruct c as [?c|]
      end;
  cbn [closing close_value app] in *;
  unfold established, spawned, closed, dialed, failed_handshakes, published in *;
  rewrite ?flat_map_app; cbn [flat_map app].

Lemma NoDup_snoc {A} (l : list A) (x : A) :
  NoDup l -> ~ In x l -> NoDup (l ++ [x]).
Proof.
  intros Hl Hx. induction Hl as [|y l Hy Hl IH]; cbn.
  - constructor; [intros [] | constructor].
  - constructor.
    + intros Hin. apply in_app_or in Hin. destruct Hin as [Hin|[-> |[]]].
      * contradiction.
      * apply Hx. now left.
    + apply IH. intros Hin. apply Hx. now right.
Qed.

(** What one transition does to the sockets: it closes the recorded
    connection or nothing, and dials nothing or the next socket, which
    it then records (with a reader) or abandons after a failed
    handshake. *)
Lemma transition_sockets (s s' : LoopState) (e : event) :
  transition s e s' ->
  let tr := trace (world s) in
  let tr' := trace (world s') in
  let f := fresh (world s) in
  exists cl dl es fl,
    closed tr' = closed tr ++ cl
    /\ dialed tr' = dialed tr ++ dl
    /\ established tr' = established tr ++ es
    /\ failed_handshakes tr' = failed_handshakes tr ++ fl
    /\ spawned tr' = spawned tr ++ map (fun c => (c, c)) es
    /\ (cl = [] \/ exists c, conn (apn (world s)) = Some c /\ cl = [c])
    /\ ((dl = [] /\ fresh (world s') = f /\ es = [] /\ fl = [])
        \/ (dl = [f] /\ fresh (world s') = S f
            /\ ((es = [f] /\ fl = [])
                \/ (es = [] /\ fl = [f]))))
    /\ ((conn (apn (world s')) = None /\ es = [])
        \/ (conn (apn (world s')) = conn (apn (world s)) /\ cl = [] /\ es = [])
        \/ (conn (apn (world s')) = Some f /\ es = [f]))
    /\ (forall x, In x (open_sockets tr')
                  <-> (In x (open_sockets tr) /\ ~ In x cl) \/ In x dl).
Proof.
  intros Ht tr tr' f. subst tr tr' f.
  observe Ht.
  all: try discriminate.
  all: try (destruct (close_result env); cbn [flat_map app]).
  all: try discriminate.
  all: rewrite ?open_sockets_app; cbn [fold_left open_step].
  all: do 4 eexists.
  all: (split; [reflexivity|]); (split; [reflexivity|]);
       (split; [reflexivity|]); (split; [reflexivity|]);
       (split; [reflexivity|]).
  all: cbn [map]; (split; [eauto 8|]); (split; [eauto 8|]); (split; [eauto 8|]).
  all: intros x; cbn [In]; rewrite ?In_remove_iff; intuition congruence.
Qed.

Lemma bookkeeping_step (s s' : LoopState) (e : event) :
  (numbering_invariant s /\ closing_invariant s
   /\ spawned (trace (world s))
      = map (fun c => (c, c)) (established (trace (world s)))) ->
  transition s e s' ->
  numbering_invariant s' /\ closing_invariant s'
  /\ spawned (trace (world s'))
     = map (fun c => (c, c)) (established (trace (world s'))).
Proof.
  unfold numbering_invariant, closing_invariant.
  intros ((Hd & He & Hf & Hx & Hne) & (Hn & Hsub & Hrec) & Hsp) Ht.
  destruct (transition_sockets s s' e Ht)
    as (cl & dl & es & fl & Hcl & Hdl & Hes & Hfl & Hsp' & Hclose & Hdial & Hconn & _).
  cbv zeta in *. rewrite Hcl, Hdl, Hes, Hfl, Hsp'. clear Hcl Hdl Hes Hfl Hsp'.
  set (f := fresh (world s)) in *.
  assert (Hfe : ~ In f (established (trace (world s)))).
  { intros Hin. apply He in Hin. lia. }
  assert (Hff : ~ In f (failed_handshakes (trace (world s)))).
  { intros Hin. apply Hf in Hin. lia. }
  assert (Hfc : ~ In f (closed (trace (world s)))).
  { intros Hin. apply Hsub in Hin. contradiction. }
  assert (Hes : es = [] \/ es = [f]).
  { destruct Hdial as [(_ & _ & -> & _)|(_ & _ & [[-> _]|[-> _]])]; auto. }
  assert (Hfl : fl = [] \/ (fl = [f] /\ es = [])).
  { destruct Hdial as [(_ & _ & _ & ->)|(_ & _ & [[_ ->]|[-> ->]])]; auto. }
  assert (Hfresh : (f <= fresh (world s'))%nat).
  { destruct Hdial as [(_ & -> & _)|(_ & -> & _)]; lia. }
  split; [|split].
  - (* numbering *)
    repeat split.
    + destruct Hdial as [(-> & -> & _)|(-> & -> & _)].
      * now rewrite app_nil_r.
      * now rewrite Hd, seq_S.
    + intros c Hin. apply in_app_or in Hin. destruct Hin as [Hin|Hin].
      * apply He in Hin. lia.
      * destruct Hes as [-> | ->]; [destruct Hin|].
        destruct Hin as [<-|[]].
        destruct Hdial as [(_ & _ & Hbad & _)|(_ & -> & _)]; [discriminate|lia].
    + intros c Hin. apply in_app_or in Hin. destruct Hin as [Hin|Hin].
      * apply Hf in Hin. lia.
      * destruct Hfl as [-> |[-> _]]; [destruct Hin|].
        destruct Hin as [<-|[]].
        destruct Hdial as [(_ & _ & _ & Hbad)|(_ & -> & _)]; [discriminate|lia].
    + intros c Hin Hin'.
      apply in_app_or in Hin. apply in_app_or in Hin'.
      destruct Hin as [Hin|Hin]; destruct Hin' as [Hin'|Hin'].
      * exact (Hx c Hin Hin').
      * destruct Hfl as [-> |[-> _]]; [destruct Hin'|].
        destruct Hin' as [<-|[]]. contradiction.
      * destruct Hes as [-> | ->]; [destruct Hin|].
        destruct Hin as [<-|[]]. contradiction.
      * destruct Hfl as [-> |[-> ->]]; [destruct Hin'|destruct Hin].
    + destruct Hes as [-> | ->].
      * now rewrite app_nil_r.
      * now apply NoDup_snoc.
  - (* closing *)
    repeat split.
    + destruct Hclose as [-> |(c & Hc & ->)].
      * now rewrite app_nil_r.
      * apply NoDup_snoc; [exact Hn|]. apply (Hrec c Hc).
    + intros c Hin. apply in_or_app. left.
      apply in_app_or in Hin. destruct Hin as [Hin|Hin].
      * now apply Hsub.
      * destruct Hclose as [-> |(c0 & Hc & ->)]; [destruct Hin|].
        destruct Hin as [<-|[]]. apply (Hrec c0 Hc).
    + destruct Hconn as [(Hc' & _)|[(Hc' & -> & ->)|(Hc' & ->)]];
        rewrite Hc' in H; [discriminate| |].
      * rewrite app_nil_r. now apply Hrec.
      * injection H as H'. rewrite <- H'. apply in_or_app. right. now left.
    + destruct Hconn as [(Hc' & _)|[(Hc' & -> & ->)|(Hc' & ->)]];
        rewrite Hc' in H; [discriminate| |].
      * rewrite app_nil_r. now apply Hrec.
      * injection H as H'. rewrite <- H'. intros Hin. apply in_app_or in Hin.
        destruct Hin as [Hin|Hin]; [contradiction|].
        destruct Hclose as [-> |(c0 & Hc & ->)]; [destruct Hin|].
        destruct Hin as [Hin|[]]. apply Hfe. rewrite <- Hin. apply (Hrec c0 Hc).
  - (* readers *)
    now rewrite Hsp, map_app.
Qed.

Lemma bookkeeping_reachable (s : LoopState) :
  reachable s ->
  numbering_invariant s /\ closing_invariant s
  /\ spawned (trace (world s))
     = map (fun c => (c, c)) (established (trace (world s))).
Proof.
  revert s.
  apply (reachable_ind (fun s =>
    numbering_invariant s /\ closing_invariant s
    /\ spawned (trace (world s))
       = map (fun c => (c, c)) (established (trace (world s))))).
  - unfold numbering_invariant, closing_invariant. cbn.
    repeat split; try constructor; try (intros c []); discriminate.
  - intros s0 e s' _. apply bookkeeping_step.
Qed.

Lemma open_invariant_step (s s' : LoopState) (e : event) :
  numbering_invariant s -> closing_invariant s ->
  open_invariant s -> transition s e s' -> open_invariant s'.
Proof.
  unfold numbering_invariant, closing_invariant, open_invariant.
  intros (Hd & He & _) (_ & Hsub & Hrec) Ho Ht x.
  destruct (transition_sockets s s' e Ht)
    as (cl & dl & es & fl & Hcl & Hdl & _ & _ & _ & Hclose & Hdial & _ & Hopen).
  cbv zeta in *. rewrite Hcl, Hdl, Hopen, Ho, !in_app_iff.
  set (f := fresh (world s)) in *.
  assert (Hfd : ~ In f (dialed (trace (world s)))).
  { rewrite Hd, in_seq. lia. }
  assert (Hfc : ~ In f (closed (trace (world s)))).
  { intros Hin. apply Hsub, He in Hin. lia. }
  assert (Hdl' : dl = [] \/ dl = [f]).
  { destruct Hdial as [(-> & _)|(-> & _)]; auto. }
  assert (Hcl' : forall c, In c cl -> c <> f).
  { intros c Hin Heq. subst c.
    destruct Hclose as [-> |(c0 & Hc & ->)]; [destruct Hin|].
    destruct Hin as [Hin|[]]. subst c0. destruct (Hrec f Hc) as [Hin _].
    apply He in Hin. lia. }
  destruct Hdl' as [-> | ->]; cbn [In]; split.
  - intros [[[Hx1 Hx2] Hx3]|[]]. tauto.
  - intros [[Hx|[]] Hn]. left. tauto.
  - intros [[[Hx1 Hx2] Hx3]|[<-|[]]]; [tauto|].
    split; [auto|]. intros [Hin|Hin]; [contradiction|].
    now apply (Hcl' f Hin).
  - intros [[Hx|[<-|[]]] Hn]; [left; tauto | right; now left].
Qed.

Lemma open_invariant_reachable (s : LoopState) :
  reachable s -> open_invariant s.
Proof.
  revert s. apply (reachable_ind open_invariant).
  - intros c. cbn. tauto.
  - intros s e s' Hr Ho Ht.
    destruct (bookkeeping_reachable s Hr) as (Hnum & Hcl & _).
    now apply (open_invariant_step s s' e).
Qed.

(** *** Writes *)

Lemma writes_checked_app (l : list nat) (a b : list action) :
  writes_checked l (a ++ b)
  <-> writes_checked l a /\ writes_checked (fold_left live_step a l) b.
Proof.
  revert l. induction a as [|x a IH]; intros l; cbn [app writes_checked fold_left].
  - tauto.
  - rewrite IH. tauto.
Qed.

Lemma writes_checked_step (s s' : LoopState) (e : event) :
  connection_invariant s ->
  writes_checked [] (trace (world s)) ->
  transition s e s' ->
  writes_checked [] (trace (world s')).
Proof.
  intros [Hl _] Hw Ht.
  destruct Ht; unfold st, leaving in *; cbn [world trace apn conn] in *;
    apply writes_checked_app; (split; [exact Hw|]);
    fold (live tr); rewrite Hl;
    try match goal with
        | c : option nat |- _ => destruct c as [?c|]
        end;
    cbn [olist closing close_value app writes_checked live_step];
    rewrite ?remove_same;
    try (destruct (close_result env));
    cbn [olist closing close_value app writes_checked live_step];
    auto 10.
Qed.

Lemma writes_checked_reachable (s : LoopState) :
  reachable s -> writes_checked [] (trace (world s)).
Proof.
  revert s. apply (reachable_ind (fun s => writes_checked [] (trace (world s)))).
  - exact I.
  - intros s e s' Hr Hw Ht.
    apply (writes_checked_step s s' e); auto.
    now apply connection_invariant_reachable.
Qed.

(** X4.  In every run in which the exported [Close] is not called (the
    source runs it unsynchronised), each connection the loop closes is
    an established one and is closed only once: no socket is closed
    twice, and a socket that never completed its handshake is never
    closed. *)
Theorem connections_closed_once (evs : list event) (s : LoopState) :
  run init evs = Some s ->
  existsb is_close_call evs = false ->
  NoDup (closed (trace (world s)))
  /\ (forall c, In c (closed (trace (world s))) ->
        In c (established (trace (world s))))
  /\ (forall c, conn (apn (world s)) = Some c ->
        ~ In c (closed (trace (world s)))).
Proof.
  intros Hrun _.
  destruct (bookkeeping_reachable s (ex_intro _ evs Hrun))
    as (_ & (Hn & Hsub & Hrec) & _).
  repeat split; auto. intros c Hc. now apply Hrec.
Qed.

(** X5.  In every run a socket whose handshake failed is left open for
    good: [connect] does not close it, the client does not record it, and
    nothing closes it later. *)
Theorem failed_handshake_socket_never_closed
  (evs : list event) (s : LoopState) (c : nat) :
  run init evs = Some s ->
  In c (failed_handshakes (trace (world s))) ->
  ~ In c (closed (trace (world s)))
  /\ In c (open_sockets (trace (world s)))
  /\ conn (apn (world s)) <> Some c.
Proof.
  intros Hrun Hin.
  pose proof (ex_intro (fun evs => run init evs = Some s) evs Hrun) as Hr.
  destruct (bookkeeping_reachable s Hr)
    as ((Hd & He & Hf & Hx & _) & (_ & Hsub & Hrec) & _).
  assert (Hnc : ~ In c (closed (trace (world s)))).
  { intros Hc. apply Hsub in Hc. exact (Hx c Hc Hin). }
  split; [exact Hnc|]. split.
  - apply (open_invariant_reachable s Hr). split; [|exact Hnc].
    cbv zeta in Hd. rewrite Hd. apply in_seq. apply Hf in Hin. lia.
  - intros Hc. destruct (Hrec c Hc) as [Hce _]. exact (Hx c Hce Hin).
Qed.

(** X6.  In every run the readers started are exactly the established
    connections, one reader each and in the same order, each with a quit
    channel of its own; no socket is established twice. *)
Theorem one_reader_per_connection (evs : list event) (s : LoopState) :
  run init evs = Some s ->
  spawned (trace (world s))
  = map (fun c => (c, c)) (established (trace (world s)))
  /\ NoDup (established (trace (world s)))
  /\ NoDup (map snd (spawned (trace (world s)))).
Proof.
  intros Hrun.
  destruct (bookkeeping_reachable s (ex_intro _ evs Hrun))
    as ((_ & _ & _ & _ & Hn) & _ & Hsp).
  split; [exact Hsp|]. split; [exact Hn|].
  rewrite Hsp, map_map. cbn [snd]. now rewrite map_id.
Qed.

(** X7.  In every run in which the exported [Close] is not called (the
    source runs it unsynchronised), each write goes to an established
    connection that is open at that moment, and no other established
    connection is open then: the loop never writes to a closed socket
    nor to one that is not established.  (The sockets left open by
    failed handshakes are not established connections.) *)
Theorem writes_go_to_the_open_connection
  (evs : list event) (s : LoopState)
  (p rest : list action) (c : nat) (data : list byte) (r : option error) :
  run init evs = Some s ->
  existsb is_close_call evs = false ->
  trace (world s) = p ++ ConnWrite c data r :: rest ->
  live p = [c].
Proof.
  intros Hrun _ Heq.
  pose proof (writes_checked_reachable s (ex_intro _ evs Hrun)) as Hw.
  rewrite Heq in Hw. apply writes_checked_app in Hw.
  destruct Hw as [_ [Hc _]]. exact Hc.
Qed.

(** X8.  Whenever the loop waits for a request, no connection is recorded
    and no established connection is open; whenever it is in its active
    phase, the recorded connection is the one that phase made, unless the
    exported [Close] has dropped it. *)
Theorem idle_means_disconnected (evs : list event) (s : LoopState) :
  run init evs = Some s ->
  (pc s = Idle ->
   conn (apn (world s)) = None /\ live (trace (world s)) = [])
  /\ (forall q, pc s = Active q ->
      (conn (apn (world s)) = Some q /\ live (trace (world s)) = [q])
      \/ (conn (apn (world s)) = None /\ live (trace (world s)) = [])).
Proof.
  intros Hrun.
  pose proof (ex_intro (fun evs => run init evs = Some s) evs Hrun) as Hr.
  destruct (connection_invariant_reachable s Hr) as [Hl _].
  destruct (phase_invariant_reachable s Hr) as [Hi Ha].
  split.
  - intros Hpc. rewrite Hl, (Hi Hpc). auto.
  - intros q Hpc. destruct (Ha q Hpc) as [Hc|Hc]; rewrite Hl, Hc; auto.
Qed.

End BookkeepingFacts.

(* ================================================================== *)
(** * Steps of the loop *)

Section StepFacts.

Context {ext : Externals}.

Lemma closed_app (a b : list action) : closed (a ++ b) = closed a ++ closed b.
Proof. apply flat_map_app. Qed.

Lemma published_app (a b : list action) :
  published (a ++ b) = published a ++ published b.
Proof. apply flat_map_app. Qed.

Lemma spawned_app (a b : list action) :
  spawned (a ++ b) = spawned a ++ spawned b.
Proof. apply flat_map_app. Qed.

(** X9.  On the connection-loss signal or the idle timeout the loop
    closes the recorded connection, once, and goes back to waiting with
    no connection recorded and none open.  No caller gets a result from
    this; if the close fails, the failure is published once on the error
    channel as an event with no bytes, otherwise nothing is published.
    The identifier counter is untouched. *)
Theorem leaving_active_closes_and_reports
  (s : LoopState) (q : nat) (e : event) (env : Env) :
  reachable s ->
  pc s = Active q ->
  e = QuitSignal env \/ e = IdleTimeout env ->
  exists s',
    step s e = Some s'
    /\ pc s' = Idle
    /\ conn (apn (world s')) = None
    /\ live (trace (world s')) = []
    /\ closed (added s s') = olist (conn (apn (world s)))
    /\ deliveries (added s s') = []
    /\ published (added s s')
       = match close_value (conn (apn (world s))) (close_result env) with
         | Some err => [NewNotificationError [] (Some err)]
         | None => []
         end
    /\ dial_attempts (added s s') = 0%nat
    /\ identifier (apn (world s')) = identifier (apn (world s)).
Proof.
  intros Hr Hpc He.
  destruct (step_defined s e) as [s' Hs].
  { congruence. }
  { congruence. }
  exists s'. split; [exact Hs|].
  assert (Hr' : reachable s') by (eapply reachable_step; eassumption).
  destruct (connection_invariant_reachable s' Hr') as [Hl _].
  pose proof (step_transition _ _ _ Hs) as Ht.
  destruct s as [[[c ident] f tr] ph ch]. cbn [pc world apn conn] in Hpc |- *.
  subst ph.
  change (mkLoop (mkWorld (mkApn c ident) f tr) (Active q) ch)
    with (st c ident f tr (Active q) ch) in *.
  inversion Ht; subst; try (destruct He; discriminate).
  match goal with
  | H : wakes_select _ _ |- _ =>
      assert (env0 = env) by (destruct H, He; congruence)
  end.
  subst env0. rewrite added_st. rewrite Hl.
  unfold st, leaving. cbn [pc world apn conn identifier olist].
  repeat split.
  - destruct c; [destruct (close_result env)|]; reflexivity.
  - destruct c; [destruct (close_result env)|]; reflexivity.
  - destruct c; [destruct (close_result env)|]; reflexivity.
  - destruct c; [destruct (close_result env)|]; reflexivity.
Qed.

(** X10.  A request served in the active phase uses the connection that
    is there: it dials nothing, closes nothing, starts no reader and
    leaves the recorded connection as it is. *)
Theorem active_request_reuses_connection
  (s : LoopState) (q : nat) (n : Notification) (env : Env) :
  pc s = Active q ->
  exists s',
    step s (Submit n env) = Some s'
    /\ dial_attempts (added s s') = 0%nat
    /\ closed (added s s') = []
    /\ spawned (added s s') = []
    /\ published (added s s') = []
    /\ conn (apn (world s')) = conn (apn (world s))
    /\ (pc s' = Active q \/ pc s' = Crashed).
Proof.
  intros Hpc.
  destruct (step_defined s (Submit n env)) as [s' Hs].
  { congruence. }
  { congruence. }
  exists s'. split; [exact Hs|].
  pose proof (step_transition _ _ _ Hs) as Ht.
  destruct s as [[[c ident] f tr] ph ch]. cbn [pc world apn conn] in Hpc |- *.
  subst ph.
  change (mkLoop (mkWorld (mkApn c ident) f tr) (Active q) ch)
    with (st c ident f tr (Active q) ch) in *.
  inversion Ht; subst;
    try match goal with
        | H : wakes_select _ _ |- _ => destruct H; discriminate
        end;
    rewrite added_st; unfold st; cbn; auto 10.
Qed.

(** X11.  The loop connects before it looks at the notification: a first
    request whose notification fails a check of [send] still makes the
    loop dial, shake hands and start a reader; the caller gets the error
    of the check, nothing is written, the counter is untouched, and the
    loop is active on the new connection. *)
Theorem invalid_first_request_still_connects
  (s : LoopState) (n : Notification) (env : Env) :
  reachable s ->
  pc s = Idle ->
  rejected n ->
  connect_error env = None ->
  exists s' err,
    step s (Submit n env) = Some s'
    /\ added s s'
       = [DialOk (fresh (world s)); HandshakeOk (fresh (world s));
          SpawnReader (fresh (world s)) (fresh (world s));
          Deliver (chans s) (Some err)]
    /\ send env n (world s') = Done (Some err) (world s')
    /\ pc s' = Active (fresh (world s))
    /\ conn (apn (world s')) = Some (fresh (world s))
    /\ identifier (apn (world s')) = identifier (apn (world s)).
Proof.
  intros Hr Hpc Hrej Hce.
  pose proof (idle_no_connection s Hr Hpc) as Hc.
  destruct (idle_submit s n env Hpc Hc) as (s' & Hs & Ht & _).
  exists s'.
  assert (Hv : exists err, validation_error n = Some err).
  { destruct (validation_error n) as [err|] eqn:E; eauto.
    apply validation_error_None in E. destruct E as (Hh & Hm & Hl).
    destruct Hrej as [Hx|[Hx|Hx]]; [congruence | congruence | lia]. }
  destruct Hv as [err Hv]. exists err. split; [exact Hs|].
  unfold connect_error in Hce.
  destruct s as [[[c ident] f tr] ph ch]. cbn [pc world apn conn fresh chans] in *.
  subst c ph.
  change (mkLoop (mkWorld (mkApn None ident) f tr) Idle ch)
    with (st None ident f tr Idle ch) in *.
  inversion Ht; subst;
    repeat match goal with
           | H : dial_result _ = _ |- _ => rewrite H in Hce; clear H
           | H : handshake_result _ = _ |- _ => rewrite H in Hce; clear H
           end;
    try discriminate; try congruence.
  rewrite added_st. unfold st. cbn [world pc apn conn identifier closing app].
  rewrite send_eq, Hv.
  assert (err0 = err) by congruence. subst err0. auto 10.
Qed.


End StepFacts.

(* ================================================================== *)
(** * Close and connect from outside and inside the loop *)

Section CloseConnectFacts.

Context {ext : Externals}.

Lemma established_app (a b : list action) :
  established (a ++ b) = established a ++ established b.
Proof. apply flat_map_app. Qed.

(** X13.  [connect] never panics and always lets go of the previous
    connection: it closes it (if there is one) before anything else and
    leaves the counter alone.  If it returns an error, no connection is
    recorded, no reader is started and no quit channel is returned; a
    failed close of the previous connection ends it before any dial.  If
    it succeeds, the connection recorded is the socket just dialled, with
    one reader started on it and its quit channel returned. *)
Theorem connect_postcondition (env : Env) (w : World) :
  exists r w',
    connect env w = Done r w'
    /\ closed (trace w') = closed (trace w) ++ olist (conn (apn w))
    /\ identifier (apn w') = identifier (apn w)
    /\ (forall e, snd r = Some e ->
        fst r = None
        /\ conn (apn w') = None
        /\ spawned (trace w') = spawned (trace w)
        /\ established (trace w') = established (trace w))
    /\ (snd r = None ->
        fst r = Some (fresh w)
        /\ conn (apn w') = Some (fresh w)
        /\ established (trace w') = established (trace w) ++ [fresh w]
        /\ spawned (trace w') = spawned (trace w) ++ [(fresh w, fresh w)])
    /\ (forall e, close_value (conn (apn w)) (close_result env) = Some e ->
        r = (None, Some (Errorf "close last connection failed: %s" e))
        /\ dial_attempts (trace w') = dial_attempts (trace w)).
Proof.
  unfold connect. unfold bind at 1. rewrite Close_eq.
  assert (Hcl : closed (closing (conn (apn w)) (close_result env))
                = olist (conn (apn w))).
  { now destruct (conn (apn w)). }
  assert (Hother : spawned (closing (conn (apn w)) (close_result env)) = []
                   /\ established (closing (conn (apn w)) (close_result env)) = []
                   /\ dial_attempts (closing (conn (apn w)) (close_result env)) = 0%nat).
  { now destruct (conn (apn w)). }
  destruct Hother as (Hsp & Hes & Hdi).
  destruct (close_value (conn (apn w)) (close_result env)) as [e|] eqn:Ec.
  { run_monad. do 2 eexists. split; [reflexivity|]. cbn [apn trace conn identifier fst snd].
    rewrite closed_app, spawned_app, Hcl, Hsp, app_nil_r.
    rewrite established_app, Hes, app_nil_r, dial_attempts_app, Hdi.
    repeat split; auto; try discriminate; try congruence. }
  unfold bind at 1, net_Dial.
  destruct (dial_result env) as [e|] eqn:Ed.
  { run_monad. do 2 eexists. split; [reflexivity|]. cbn [apn trace conn identifier fst snd].
    rewrite !closed_app, !spawned_app, Hcl, Hsp.
    rewrite !established_app, Hes. cbn. rewrite !app_nil_r.
    repeat split; auto; try discriminate. }
  cbn [snd fst fresh trace apn]. unfold bind at 1, Handshake.
  destruct (handshake_result env) as [e|] eqn:Eh.
  { run_monad. do 2 eexists. split; [reflexivity|]. cbn [apn trace conn identifier fst snd].
    rewrite !closed_app, !spawned_app, Hcl, Hsp.
    rewrite !established_app, Hes. cbn. rewrite !app_nil_r.
    repeat split; auto; try discriminate. }
  run_monad. do 2 eexists. split; [reflexivity|]. cbn [apn trace conn identifier fst snd].
  rewrite !closed_app, !spawned_app, Hcl, Hsp.
  rewrite !established_app, Hes. cbn. rewrite !app_nil_r.
  repeat split; auto; try discriminate.
Qed.

(** X14.  [Close], run from its first statement to its last with no
    other goroutine touching the client meanwhile (the source has no
    lock that ensures it): it closes the recorded connection, if any,
    once, forgets it also when that close fails, returns what the close
    returned (nil when there was none) and leaves the identifier alone.
    Run again right after, it touches no socket and returns nil. *)
Theorem Close_twice (env1 env2 : Env) (w : World) :
  exists w1,
    Close env1 w
    = Done (match conn (apn w) with
            | Some _ => close_result env1
            | None => None
            end) w1
    /\ trace w1
       = trace w ++ match conn (apn w) with
                    | Some c => [ConnClose c (close_result env1)]
                    | None => []
                    end
    /\ conn (apn w1) = None
    /\ identifier (apn w1) = identifier (apn w)
    /\ fresh w1 = fresh w
    /\ Close env2 w1 = Done None w1.
Proof.
  eexists. split; [apply Close_eq|].
  cbn [trace apn conn identifier fresh].
  do 4 (split; [reflexivity|]).
  rewrite Close_eq. cbn [apn conn identifier fresh trace closing close_value].
  now rewrite app_nil_r.
Qed.

(** *** The error of a failed close of the previous connection *)

Lemma validation_error_not_close_last (n : Notification) (err : error) :
  validation_error n = Some err -> ~ is_close_last_error (Some err).
Proof.
  unfold validation_error, is_close_last_error.
  destruct (hex_DecodeString (DeviceToken n)) as [tok [eh|]].
  { intros [= <-] [e He]. discriminate He. }
  destruct (MarshalJSON (payload n)) as [pl [em|]].
  { intros [= <-] [e He]. discriminate He. }
  destruct (Z.of_nat (List.length pl) >? maxPayloadBytes).
  - intros [= <-] [e He]. discriminate He.
  - discriminate.
Qed.

Lemma write_outcome_not_close_last (r : option error) :
  ~ is_close_last_error (write_outcome r).
Proof.
  destruct r as [err|]; intros [e He]; discriminate He.
Qed.

(** X15.  [connect] starts by closing the previous connection and has an
    error for the case that this close fails; the loop calls [connect]
    only when no connection is recorded, so in no run does a caller ever
    get that error. *)
Theorem close_last_error_never_delivered
  (evs : list event) (s : LoopState) (ch : nat) (r : option error) :
  run init evs = Some s ->
  In (ch, r) (deliveries (trace (world s))) ->
  ~ is_close_last_error r.
Proof.
  intros Hrun. revert ch r.
  pose proof (ex_intro (fun evs => run init evs = Some s) evs Hrun) as Hr.
  clear Hrun. revert s Hr.
  apply (reachable_ind (fun s => forall ch r,
    In (ch, r) (deliveries (trace (world s))) -> ~ is_close_last_error r)).
  - intros ch r [].
  - intros s e s' Hr IH Ht ch' r Hin.
    pose proof (idle_no_connection s Hr) as Hidle.
    destruct Ht; unfold st in *; cbn [world trace pc apn conn] in *;
      rewrite ?deliveries_app, ?deliveries_closing, ?deliveries_leaving in Hin;
      cbn [deliveries flat_map app] in Hin;
      apply in_app_or in Hin; destruct Hin as [Hin|Hin];
      try (now apply (IH ch' r));
      try (destruct Hin as [Hin|[]]; injection Hin as <- <-);
      try (destruct Hin).
    + rewrite (Hidle eq_refl) in *. discriminate.
    + intros [e' He]. discriminate He.
    + intros [e' He]. discriminate He.
    + now apply (validation_error_not_close_last n).
    + apply write_outcome_not_close_last.
    + now apply (validation_error_not_close_last n).
    + apply write_outcome_not_close_last.
    + rewrite (Hidle eq_refl) in *. discriminate.
    + intros [e' He]. discriminate He.
    + intros [e' He]. discriminate He.
Qed.

(** *** No crash without the exported Close and nil notifications *)

Lemma nil_dereference_only_when_crashed (s : LoopState) :
  reachable s ->
  In NilDereference (trace (world s)) -> pc s = Crashed.
Proof.
  revert s.
  apply (reachable_ind (fun s =>
    In NilDereference (trace (world s)) -> pc s = Crashed)).
  - intros [].
  - intros s e s' _ IH Ht Hin.
    pose proof (transition_not_crashed_before _ _ _ Ht) as Hnc.
    destruct Ht; unfold st, leaving in *; cbn [world trace pc] in *;
      try reflexivity;
      apply in_app_or in Hin; destruct Hin as [Hin|Hin];
      try (apply IH in Hin; congruence);
      try match goal with
          | c : option nat |- _ => destruct c
          end;
      try (destruct (close_result env));
      cbn in Hin; intuition discriminate.
Qed.

(** X16.  Whatever the dial, the handshake, the writes and the closes
    return, and in whatever order requests, quit signals and timeouts
    arrive, the loop does not crash as long as nobody calls the exported
    [Close] and no request carries a nil notification: no nil pointer is
    ever dereferenced, and the loop serves the next event it listens
    for. *)
Theorem loop_survives_every_failure
  (evs : list event) (s : LoopState) :
  run init evs = Some s ->
  existsb is_close_call evs = false ->
  existsb is_nil_submit evs = false ->
  pc s <> Crashed
  /\ ~ In NilDereference (trace (world s))
  /\ (forall e, is_close_call e = false ->
      is_nil_submit e = false ->
      (pc s = Idle -> is_submit e = true) ->
      exists s', step s e = Some s' /\ pc s' <> Crashed).
Proof.
  intros Hrun Hnc Hnn.
  destruct (run_without_close evs s Hrun Hnc Hnn) as (Hpc & _ & _).
  split; [exact Hpc|]. split.
  - intros Hin. apply Hpc.
    apply nil_dereference_only_when_crashed; [now exists evs | exact Hin].
  - intros e He Hen Hidle.
    destruct (step_defined s e Hpc) as [s' Hs].
    { intros Hi. left. now apply Hidle. }
    exists s'. split; [exact Hs|].
    apply (run_without_close (evs ++ [e]) s').
    + rewrite run_app, Hrun. cbn [run]. now rewrite Hs.
    + rewrite existsb_app, Hnc. cbn. now rewrite He.
    + rewrite existsb_app, Hnn. cbn. now rewrite Hen.
Qed.

(** *** Reconnecting *)

Lemma first_request_written (s : LoopState) (n : Notification) (env : Env) :
  pc s = Idle ->
  conn (apn (world s)) = None ->
  accepted n ->
  connect_error env = None ->
  step s (Submit n env)
  = Some (st (Some (fresh (world s)))
            (uint32 (identifier (apn (world s)) + 1))
            (S (fresh (world s)))
            (trace (world s)
               ++ [DialOk (fresh (world s)); HandshakeOk (fresh (world s));
                   SpawnReader (fresh (world s)) (fresh (world s));
                   ConnWrite (fresh (world s))
                     (frame_of env n (identifier (apn (world s))))
                     (write_result env);
                   Deliver (chans s) (write_outcome (write_result env))])
            (Active (fresh (world s))) (S (chans s))).
Proof.
  intros Hpc Hc Ha Hce.
  destruct (idle_submit s n env Hpc Hc) as (s' & Hs & Ht & _).
  rewrite Hs. f_equal.
  apply validation_error_None in Ha. unfold connect_error in Hce.
  destruct s as [[[c ident] f tr] ph ch]. cbn [pc world apn conn fresh chans trace identifier] in *.
  subst c ph.
  change (mkLoop (mkWorld (mkApn None ident) f tr) Idle ch)
    with (st None ident f tr Idle ch) in *.
  inversion Ht; subst;
    repeat match goal with
           | H : dial_result _ = _ |- _ => rewrite H in Hce; clear H
           | H : handshake_result _ = _ |- _ => rewrite H in Hce; clear H
           end;
    try discriminate; try congruence.
  reflexivity.
Qed.

(** X17.  A client that has sent one notification and then sat idle until
    the timeout has closed its connection; its next notification goes out
    on a new connection, with a new reader, and carries the next
    identifier: the trace of the whole run is the first connection with
    frame 0, its close (and the event of a failed close), then the second
    connection with frame 1. *)
Theorem reconnect_after_idle_timeout
  (n1 n2 : Notification) (env1 env2 env3 : Env) :
  accepted n1 ->
  accepted n2 ->
  connect_error env1 = None ->
  connect_error env3 = None ->
  exists s,
    run init [Submit n1 env1; IdleTimeout env2; Submit n2 env3] = Some s
    /\ trace (world s)
       = [DialOk 0; HandshakeOk 0; SpawnReader 0 0;
          ConnWrite 0 (frame_of env1 n1 0) (write_result env1);
          Deliver 0 (write_outcome (write_result env1));
          ConnClose 0 (close_result env2)]
         ++ match close_result env2 with
            | Some err => [Publish (NewNotificationError [] (Some err))]
            | None => []
            end
         ++ [DialOk 1; HandshakeOk 1; SpawnReader 1 1;
             ConnWrite 1 (frame_of env3 n2 1) (write_result env3);
             Deliver 1 (write_outcome (write_result env3))]
    /\ pc s = Active 1
    /\ conn (apn (world s)) = Some 1%nat
    /\ frame_ids (trace (world s)) = [0; 1].
Proof.
  intros Ha1 Ha2 Hc1 Hc3.
  cbn [run].
  rewrite (first_request_written init n1 env1 eq_refl eq_refl Ha1 Hc1).
  cbn [init world apn conn identifier fresh trace chans app].
  change (uint32 (0 + 1)) with 1.
  set (s1 := st (Some 0%nat) 1 1 _ (Active 0) 1).
  destruct (step_defined s1 (IdleTimeout env2)) as [s2 Hs2].
  { discriminate. }
  { discriminate. }
  rewrite Hs2. pose proof (step_transition _ _ _ Hs2) as Ht2.
  subst s1. inversion Ht2; subst.
  clear Ht2 Hs2.
  match goal with
  | H : wakes_select _ _ |- _ =>
      assert (env = env2) by (destruct H; congruence); clear H
  end.
  subst env.
  match goal with
  | |- context [step ?s0 (Submit n2 env3)] => set (s2 := s0)
  end.
  rewrite (first_request_written s2 n2 env3 eq_refl eq_refl Ha2 Hc3).
  subst s2. unfold st, leaving.
  cbn [world apn conn identifier fresh trace chans pc closing close_value].
  change (uint32 (1 + 1)) with 2.
  eexists. split; [reflexivity|]. cbn [world trace pc apn conn].
  split.
  - rewrite <- !app_assoc. reflexivity.
  - split; [reflexivity|]. split; [reflexivity|].
    unfold frame_ids. rewrite !written_frames_app.
    destruct (close_result env2); cbn [written_frames flat_map app map];
      rewrite !frame_identifier_frame_of; reflexivity.
Qed.

End CloseConnectFacts.

(* ================================================================== *)
(** * These theorems on sample inputs *)

Lemma connections_closed_once_witness :
  run init reconnecting_run = Some (state_after reconnecting_run)
  /\ NoDup (closed (trace (world (state_after reconnecting_run))))
  /\ closed (trace (world (state_after reconnecting_run))) = [0%nat].
Proof.
  split; [vm_compute; reflexivity|]. split; [|vm_compute; reflexivity].
  refine (proj1 (connections_closed_once reconnecting_run
                   (state_after reconnecting_run) _ _)).
  - vm_compute. reflexivity.
  - reflexivity.
Defined.

Lemma failed_handshake_socket_never_closed_witness :
  run init reconnecting_run = Some (state_after reconnecting_run)
  /\ In 1%nat (failed_handshakes (trace (world (state_after reconnecting_run))))
  /\ ~ In 1%nat (closed (trace (world (state_after reconnecting_run))))
  /\ In 1%nat (open_sockets (trace (world (state_after reconnecting_run))))
  /\ conn (apn (world (state_after reconnecting_run))) <> Some 1%nat.
Proof.
  split; [vm_compute; reflexivity|]. split; [vm_compute; auto|].
  apply (failed_handshake_socket_never_closed reconnecting_run
           (state_after reconnecting_run) 1).
  - vm_compute. reflexivity.
  - vm_compute. auto.
Defined.

Lemma one_reader_per_connection_witness :
  run init reconnecting_run = Some (state_after reconnecting_run)
  /\ spawned (trace (world (state_after reconnecting_run)))
     = [(0, 0); (2, 2)]%nat.
Proof.
  split; [vm_compute; reflexivity|].
  refine (proj1 (one_reader_per_connection reconnecting_run
                   (state_after reconnecting_run) _)).
  vm_compute. reflexivity.
Defined.

Lemma writes_go_to_the_open_connection_witness :
  trace (world (state_after [Submit demo (ok_env 0)]))
  = [DialOk 0; HandshakeOk 0; SpawnReader 0 0]
      ++ ConnWrite 0 (frame_of (ok_env 0) demo 0) None :: [Deliver 0 None]
  /\ live [DialOk 0; HandshakeOk 0; SpawnReader 0 0] = [0%nat].
Proof.
  split; [vm_compute; reflexivity|].
  apply (writes_go_to_the_open_connection [Submit demo (ok_env 0)]
           (state_after [Submit demo (ok_env 0)])
           [DialOk 0; HandshakeOk 0; SpawnReader 0 0] [Deliver 0 None]
           0 (frame_of (ok_env 0) demo 0) None).
  - vm_compute. reflexivity.
  - reflexivity.
  - vm_compute. reflexivity.
Defined.

Lemma idle_means_disconnected_witness :
  run init [Submit demo (ok_env 0); QuitSignal (ok_env 1)]
  = Some (state_after [Submit demo (ok_env 0); QuitSignal (ok_env 1)])
  /\ pc (state_after [Submit demo (ok_env 0); QuitSignal (ok_env 1)]) = Idle
  /\ conn (apn (world (state_after [Submit demo (ok_env 0);
                                    QuitSignal (ok_env 1)]))) = None
  /\ live (trace (world (state_after [Submit demo (ok_env 0);
                                      QuitSignal (ok_env 1)]))) = [].
Proof.
  split; [vm_compute; reflexivity|]. split; [reflexivity|].
  refine (proj1 (idle_means_disconnected
                   [Submit demo (ok_env 0); QuitSignal (ok_env 1)]
                   (state_after [Submit demo (ok_env 0); QuitSignal (ok_env 1)])
                   _) _).
  - vm_compute. reflexivity.
  - reflexivity.
Defined.

Lemma leaving_active_closes_and_reports_witness :
  exists s',
    step (state_after [Submit demo (ok_env 0)]) (IdleTimeout (close_fails 1))
    = Some s'
    /\ pc s' = Idle
    /\ conn (apn (world s')) = None
    /\ closed (added (state_after [Submit demo (ok_env 0)]) s') = [0%nat]
    /\ published (added (state_after [Submit demo (ok_env 0)]) s')
       = [NotificationError [] (Some close_failure)].
Proof.
  destruct (leaving_active_closes_and_reports
              (state_after [Submit demo (ok_env 0)]) 0
              (IdleTimeout (close_fails 1)) (close_fails 1))
    as (s' & Hs & Hpc & Hc & _ & Hcl & _ & Hpub & _).
  - exists [Submit demo (ok_env 0)]. reflexivity.
  - reflexivity.
  - now right.
  - exists s'. repeat split; assumption.
Defined.

Lemma active_request_reuses_connection_witness :
  exists s',
    step (state_after [Submit demo (ok_env 0)]) (Submit demo (write_fails 1))
    = Some s'
    /\ dial_attempts (added (state_after [Submit demo (ok_env 0)]) s') = 0%nat
    /\ conn (apn (world s')) = Some 0%nat.
Proof.
  destruct (active_request_reuses_connection
              (state_after [Submit demo (ok_env 0)]) 0 demo (write_fails 1))
    as (s' & Hs & Hd & _ & _ & _ & Hc & _).
  - reflexivity.
  - exists s'. repeat split; assumption.
Defined.

Lemma rejected_bad_token : rejected bad_token.
Proof. left. cbn. discriminate. Qed.

Lemma invalid_first_request_still_connects_witness :
  exists s' err,
    step init (Submit bad_token (ok_env 0)) = Some s'
    /\ added init s'
       = [DialOk 0; HandshakeOk 0; SpawnReader 0 0; Deliver 0 (Some err)]
    /\ pc s' = Active 0
    /\ conn (apn (world s')) = Some 0%nat.
Proof.
  destruct (invalid_first_request_still_connects init bad_token (ok_env 0))
    as (s' & err & Hs & Hadd & _ & Hpc & Hc & _).
  - exists []. reflexivity.
  - reflexivity.
  - exact rejected_bad_token.
  - reflexivity.
  - exists s', err. repeat split; assumption.
Defined.


Lemma connect_postcondition_witness :
  exists r w',
    connect (close_fails 0) connected_world = Done r w'
    /\ r = (None, Some (Errorf "close last connection failed: %s" close_failure))
    /\ conn (apn w') = None
    /\ dial_attempts (trace w') = 0%nat.
Proof.
  destruct (connect_postcondition (close_fails 0) connected_world)
    as (r & w' & Hc & _ & _ & Herr & _ & Hcl).
  destruct (Hcl close_failure eq_refl) as [Hr Hd].
  exists r, w'. split; [exact Hc|]. split; [exact Hr|].
  split; [|exact Hd].
  apply (Herr (Errorf "close last connection failed: %s" close_failure)).
  rewrite Hr. reflexivity.
Defined.


Lemma close_last_error_never_delivered_witness :
  run init mixed_run = Some (state_after mixed_run)
  /\ In (2%nat, Some (Errorf "handshake server error: %s" handshake_failure))
       (deliveries (trace (world (state_after mixed_run))))
  /\ ~ is_close_last_error
         (Some (Errorf "handshake server error: %s" handshake_failure)).
Proof.
  split; [vm_compute; reflexivity|]. split; [vm_compute; auto|].
  apply (close_last_error_never_delivered mixed_run (state_after mixed_run) 2).
  - vm_compute. reflexivity.
  - vm_compute. auto.
Defined.

Lemma loop_survives_every_failure_witness :
  run init mixed_run = Some (state_after mixed_run)
  /\ existsb is_close_call mixed_run = false
  /\ existsb is_nil_submit mixed_run = false
  /\ pc (state_after mixed_run) <> Crashed.
Proof.
  split; [vm_compute; reflexivity|]. split; [reflexivity|].
  split; [reflexivity|].
  refine (proj1 (loop_survives_every_failure mixed_run
                   (state_after mixed_run) _ _ _)).
  - vm_compute. reflexivity.
  - reflexivity.
  - reflexivity.
Defined.

Lemma reconnect_after_idle_timeout_witness :
  exists s,
    run init [Submit demo (ok_env 0); IdleTimeout (ok_env 1);
              Submit demo (ok_env 2)] = Some s
    /\ pc s = Active 1
    /\ conn (apn (world s)) = Some 1%nat
    /\ frame_ids (trace (world s)) = [0; 1].
Proof.
  destruct (reconnect_after_idle_timeout demo demo (ok_env 0) (ok_env 1)
              (ok_env 2) accepted_demo accepted_demo eq_refl eq_refl)
    as (s & Hrun & _ & Hpc & Hc & Hids).
  exists s. repeat split; assumption.
Defined.

(* ================================================================== *)
(** * Dials and requests *)

Section DialFacts.

Context {ext : Externals}.

Lemma dial_attempts_closing (c : option nat) (cr : option error) :
  dial_attempts (closing c cr) = 0%nat.
Proof. now destruct c. Qed.

Lemma dial_attempts_leaving (c : option nat) (cr : option error) :
  dial_attempts (leaving c cr) = 0%nat.
Proof. unfold leaving. destruct c as [c|]; [destruct cr|]; reflexivity. Qed.

Lemma transition_dials (s s' : LoopState) (e : event) :
  transition s e s' ->
  exists d,
    dial_attempts (trace (world s')) = (dial_attempts (trace (world s)) + d)%nat
    /\ (d <= if is_submit e then 1 else 0)%nat
    /\ (pc s <> Idle -> d = 0%nat).
Proof.
  intros Ht.
  destruct Ht; unfold st; cbn [world trace pc is_submit];
    rewrite ?dial_attempts_app, ?dial_attempts_closing, ?dial_attempts_leaving;
    eexists; (split; [reflexivity|]); cbn; split; try lia; try congruence.
  all: try (destruct (is_submit e); lia).
  all: destruct ph; congruence || (intros _; reflexivity).
Qed.

(** X18.  The loop dials only to serve a request that found it idle, and
    then once: in every run the dial attempts are no more than the
    requests handed over, and a quit signal, a timeout, a call of the
    exported [Close] or a request served in the active phase dials
    nothing. *)
Theorem dials_bounded_by_requests (evs : list event) (s : LoopState) :
  run init evs = Some s ->
  (dial_attempts (trace (world s)) <= submits evs)%nat
  /\ (forall e s', step s e = Some s' ->
      (dial_attempts (added s s') <= 1)%nat
      /\ (is_submit e = false \/ pc s <> Idle ->
          dial_attempts (added s s') = 0%nat)).
Proof.
  intros Hrun. split.
  - revert evs s Hrun.
    apply (run_ind (fun evs s =>
      (dial_attempts (trace (world s)) <= submits evs)%nat)).
    + cbn. lia.
    + intros evs s e s' _ IH Ht.
      destruct (transition_dials s s' e Ht) as (d & Hd & Hle & _).
      rewrite Hd, submits_snoc. destruct (is_submit e); lia.
  - intros e s' Hs. apply step_transition in Hs.
    destruct (transition_dials s s' e Hs) as (d & Hd & Hle & Hact).
    rewrite (transition_extends s s' e Hs), dial_attempts_app in Hd.
    assert (Hadd : dial_attempts (added s s') = d) by lia.
    rewrite Hadd. split.
    + destruct (is_submit e); lia.
    + intros [He|Hpc].
      * rewrite He in Hle. lia.
      * now apply Hact.
Qed.

End DialFacts.

Lemma dials_bounded_by_requests_witness :
  run init mixed_run = Some (state_after mixed_run)
  /\ (dial_attempts (trace (world (state_after mixed_run))) <= 4)%nat.
Proof.
  split; [vm_compute; reflexivity|].
  refine (proj1 (dials_bounded_by_requests mixed_run (state_after mixed_run) _)).
  vm_compute. reflexivity.
Defined.

(* ================================================================== *)
(** * The reader whose loop has stopped listening *)

Section QuitFacts.

Context {ext : Externals}.

Lemma quit_invariant_step (f0 : nat) (s s' : LoopState) (e : event) :
  quit_invariant f0 s -> transition s e s' -> quit_invariant f0 s'.
Proof.
  intros [Hf Hq] Ht.
  destruct Ht; unfold quit_invariant, st in *; cbn [world fresh pc] in *;
    (split; [lia|]); intros q' Hq'; try discriminate;
    try (injection Hq' as <-; first [lia | now apply Hq]).
  subst ph. now apply Hq.
Qed.

Lemma quit_invariant_run (f0 : nat) (evs : list event) (s s' : LoopState) :
  quit_invariant f0 s -> run s evs = Some s' -> quit_invariant f0 s'.
Proof.
  revert s. induction evs as [|e evs IH]; intros s Hq Hrun; cbn [run] in Hrun.
  - injection Hrun as <-. exact Hq.
  - destruct (step s e) as [s1|] eqn:Hs; [|discriminate].
    apply (IH s1); [|exact Hrun].
    apply (quit_invariant_step f0 s s1 e Hq). now apply step_transition.
Qed.

(** The quit channel the loop listens on is that of a connection already
    made. *)
Lemma active_quit_is_made (s : LoopState) (q : nat) :
  reachable s -> pc s = Active q -> (q < fresh (world s))%nat.
Proof.
  intros Hr. revert q. revert s Hr.
  apply (reachable_ind (fun s => forall q,
    pc s = Active q -> (q < fresh (world s))%nat)).
  - discriminate.
  - intros s e s' _ IH Ht q Hq.
    destruct Ht; unfold st in *; cbn [world fresh pc] in *;
      try discriminate;
      try (injection Hq as <-; first [lia | now apply IH]).
    subst ph. now apply IH.
Qed.

(** Once the loop has left the active phase, it never again listens on
    the quit channel it had there: each [connect] makes a new one. *)
Lemma quit_channel_abandoned
  (s s1 : LoopState) (q : nat) (e : event) (evs : list event) (s' : LoopState) :
  reachable s ->
  pc s = Active q ->
  step s e = Some s1 ->
  pc s1 = Idle ->
  run s1 evs = Some s' ->
  pc s' <> Active q.
Proof.
  intros Hr Hq Hs Hidle Hrun Hq'.
  pose proof (active_quit_is_made s q Hr Hq) as Hlt.
  assert (Hinv : quit_invariant (fresh (world s1)) s1).
  { split; [lia|]. intros q0 Hq0. congruence. }
  assert (Hmono : (fresh (world s) <= fresh (world s1))%nat).
  { apply step_transition in Hs.
    destruct Hs; unfold st; cbn [world fresh]; lia. }
  pose proof (quit_invariant_run _ evs s1 s' Hinv Hrun) as [_ Hge].
  specialize (Hge q Hq'). lia.
Qed.

End QuitFacts.

(** C8, at its failing input.  A connection is made and the idle timeout
    fires: the loop closes the connection and goes back to waiting for a
    request.  The read pending on the closed connection fails; the
    reader hands its event to the error stream and blocks in
    [quit <- 1].  Only a receive from [quit] can release it, and the
    loop never again listens on that channel, whatever happens next:
    the reader has not delivered its signal and never returns (nor
    does it if nobody takes its event). *)
Lemma reader_blocks_after_idle_timeout :
  run init timed_out_run = Some (state_after timed_out_run)
  /\ spawned (trace (world (state_after timed_out_run))) = [(0, 0)]%nat
  /\ closed (trace (world (state_after timed_out_run))) = [0%nat]
  /\ pc (state_after timed_out_run) = Idle
  /\ (forall evs s',
        run (state_after timed_out_run) evs = Some s' -> pc s' <> Active 0)
  /\ exists rd,
       reader_run readError [ReadReturns failed_read; ErrorReceived] = Some rd
       /\ reader_published readError [ReadReturns failed_read; ErrorReceived]
          = [NewNotificationError [] (Some closed_connection)]
       /\ rpc rd = InSendQuit
       /\ (forall ev, is_quit_received ev = false -> reader_step rd ev = None)
       /\ (forall evs rd',
             existsb is_quit_received evs = false ->
             reader_run rd evs = Some rd' ->
             rpc rd' = InSendQuit)
       /\ (forall evs rd',
             existsb is_quit_received evs = false ->
             reader_run readError (ReadReturns failed_read :: evs) = Some rd' ->
             rpc rd' <> ReaderReturned).
Proof.
  split; [vm_compute; reflexivity|].
  split; [vm_compute; reflexivity|].
  split; [vm_compute; reflexivity|].
  split; [vm_compute; reflexivity|].
  split.
  - intros evs s' Hrun.
    apply (quit_channel_abandoned (state_after [Submit demo (ok_env 0)])
             (state_after timed_out_run) 0 (IdleTimeout (ok_env 5)) evs s').
    + exists [Submit demo (ok_env 0)]. vm_compute. reflexivity.
    + vm_compute. reflexivity.
    + vm_compute. reflexivity.
    + vm_compute. reflexivity.
    + exact Hrun.
  - destruct (reader_iteration readError failed_read eq_refl eq_refl)
      as (rd & Hrun & Hpub & _ & Hpc).
    exists rd. split; [exact Hrun|]. split; [exact Hpub|].
    cbn [is_some failed_read rd_err] in Hpc. split; [exact Hpc|].
    split; [|split].
    + intros ev Hev. unfold reader_step. rewrite Hpc.
      destruct ev; [reflexivity | reflexivity | discriminate].
    + intros evs rd' Hnq Hrd.
      destruct (reader_waits_for_quit rd evs rd' Hpc Hnq Hrd) as [_ ->].
      exact Hpc.
    + intros evs rd' Hnq Hrd.
      apply (reader_returns_only_after_quit readError
               (ReadReturns failed_read :: evs) rd');
        [discriminate | exact Hnq | exact Hrd].
Qed.
